(** * Aegean [lm_testing.py]: Gaussian models, Jacobians, whitening and fit drivers

    A shallow embedding of the numerical core of [src/lm_testing.py] and the
    properties its specification states about it.

    Conventions of the embedding.
    - A Python/numpy float is a real number ([R]); rounding is not modelled.
      An array entry is an [option R]: [None] is an entry with no finite
      value, either a masked ([nan]) datum or the result of a division by
      zero (numpy yields [nan] or [inf] and a RuntimeWarning there).
      Where rounding decides what the code does (a loop that adds [np.pi]
      to a huge angle), the code is modelled a second time on binary64
      floats, in the module [Double].
    - A one-dimensional numpy array is a [list]; functions the source applies
      to whole arrays act element by element, and a pair of coordinate arrays
      is a pair of lists of the same length.
    - [while] loops run on fuel.
    - Python exceptions are an [outcome]; objects that are mutated in place
      live in a store and are named by their location.
    - The external solvers ([mpfit], [lmfit.minimize]) and the eigensolver
      ([scipy.linalg.eigh]) are parameters of the sections that use them. *)

From Stdlib Require Import Floats.
From Stdlib Require Import Reals Lra Lia ZArith FunctionalExtensionality.
From stdpp Require Import base option list gmap strings.

Open Scope R_scope.

(** ** Numeric helpers *)

(** Division: no finite value when the divisor is zero. *)
Definition div (a b : R) : option R :=
  if Req_dec_T b 0 then None else Some (a / b).

(** ** Model evaluator *)

(** Body of [elliptical_gaussian] at one sample [(x, y)]. With a zero
    width the source divides by zero, and what it yields ([nan], or 0.0
    through [exp(-inf)]) depends on the sample: the model has no value
    there, and the statements about values are for widths that are not
    zero. *)
Definition elliptical_gaussian_at (x y amp xo yo sx sy theta : R) : option R :=
  let sint := sin theta in
  let cost := cos theta in
  let xxo := x - xo in
  let yyo := y - yo in
  a ← div ((xxo * cost + yyo * sint) ^ 2) (sx ^ 2);
  b ← div ((xxo * sint - yyo * cost) ^ 2) (sy ^ 2);
  let e := (a + b) * (-1 / 2) in
  Some (amp * exp e).

(** [elliptical_gaussian(x, y, amp, xo, yo, sx, sy, theta)] on arrays. *)
Definition elliptical_gaussian (x y : list R) (amp xo yo sx sy theta : R)
    : list (option R) :=
  zip_with (λ xi yi, elliptical_gaussian_at xi yi amp xo yo sx sy theta) x y.

(** Body of [gaussian] at one sample. *)
Definition gaussian_at (x amp cen sigma : R) : option R :=
  q ← div (x - cen) sigma;
  Some (amp * exp (-(1 / 2) * q ^ 2)).

(** [gaussian(x, amp, cen, sigma)] on an array. *)
Definition gaussian (x : list R) (amp cen sigma : R) : list (option R) :=
  map (λ xi, gaussian_at xi amp cen sigma) x.

(** ** Angle canonicalization *)

(** The two loops of [theta_limit] on real angles, where each round changes
    [theta]; the loops on the floats of the source are in [Double] below. *)

(** First loop of [theta_limit]: [while theta <= -1*np.pi/2: theta += np.pi]. *)
Fixpoint theta_raise (fuel : nat) (theta : R) : option R :=
  if Rle_dec theta (-1 * PI / 2) then
    match fuel with
    | O => None
    | S fuel' => theta_raise fuel' (theta + PI)
    end
  else Some theta.

(** Second loop: [while theta > np.pi/2: theta -= np.pi]. *)
Fixpoint theta_lower (fuel : nat) (theta : R) : option R :=
  if Rgt_dec theta (PI / 2) then
    match fuel with
    | O => None
    | S fuel' => theta_lower fuel' (theta - PI)
    end
  else Some theta.

(** [theta_limit(theta)]; [None] when the fuel does not suffice. *)
Definition theta_limit (fuel : nat) (theta : R) : option R :=
  t ← theta_raise fuel theta;
  theta_lower fuel t.

(** [theta_limit] on binary64 floats, as the source runs it: the same two
    loops, with the float nearest to pi and rounded sums. *)
Module Double.

(** [np.pi] *)
Definition pi : float := 0x1.921fb54442d18p+1%float.

(** [while theta <= -1*np.pi/2: theta += np.pi] *)
Fixpoint theta_raise (fuel : nat) (theta : float) : option float :=
  if (theta <=? -1 * pi / 2)%float then
    match fuel with
    | O => None
    | S fuel' => theta_raise fuel' (theta + pi)%float
    end
  else Some theta.

(** [while theta > np.pi/2: theta -= np.pi] *)
Fixpoint theta_lower (fuel : nat) (theta : float) : option float :=
  if (pi / 2 <? theta)%float then
    match fuel with
    | O => None
    | S fuel' => theta_lower fuel' (theta - pi)%float
    end
  else Some theta.

(** [theta_limit(theta)]; [None] when the fuel does not suffice. *)
Definition theta_limit (fuel : nat) (theta : float) : option float :=
  t ← theta_raise fuel theta;
  theta_lower fuel t.

End Double.

(** ** Exceptions *)

Inductive exn : Type :=
  | KeyError (key : string)
  | AttributeError (attr : string)
  | TypeError
  | ValueError
  | SystemExit (code : Z)
  | SolverFailure (msg : string).

Inductive outcome (A : Type) : Type :=
  | Returned (a : A)
  | Raised (e : exn).
Arguments Returned {A} a.
Arguments Raised {A} e.

#[global] Instance outcome_ret : MRet outcome := λ A a, Returned a.
#[global] Instance outcome_bind : MBind outcome := λ A B f m,
  match m with
  | Returned a => f a
  | Raised e => Raised e
  end.

(** ** Named parameters ([lmfit.Parameters]) *)

(** One [lmfit.Parameter] (the name is a reserved word here): [lower] and
    [upper] are its [min] and [max] ([None]: unbounded), [vary = false]
    marks a fixed parameter. *)
Record Param : Type := mkParam {
  value : R;
  vary : bool;
  lower : option R;
  upper : option R;
  stderr : option R
}.

(** An [lmfit.Parameters] object: the named parameters and the attribute
    [components] that callers set on it ([None]: attribute not set). *)
Record Params : Type := mkParams {
  entries : gmap string Param;
  components : option nat
}.

(** [pars[name].value] *)
Definition par_value (pars : Params) (name : string) : outcome R :=
  match entries pars !! name with
  | Some p => Returned (value p)
  | None => Raised (KeyError name)
  end.

(** ** Jacobians *)

(** Row of [jacobian] at the sample [x]: [(dmds, dmdcen, dmdsigma)]. *)
Definition jacobian_row (amp cen sigma x : R) : list (option R) :=
  let model := gaussian_at x amp cen sigma in
  let dmds := m ← model; div m amp in
  let dmdcen := m ← model; q ← div m (sigma ^ 2); Some (q * (x - cen)) in
  let dmdsigma := m ← model; div (m * (x - cen) ^ 2) (sigma ^ 3) in
  [dmds; dmdcen; dmdsigma].

(** [jacobian(pars, x)]: one row per sample (the transposed stack of the
    three derivative arrays). The unused argument [data] is left out. *)
Definition jacobian (pars : Params) (x : list R)
    : outcome (list (list (option R))) :=
  amp ← par_value pars "amp";
  cen ← par_value pars "cen";
  sigma ← par_value pars "sigma";
  mret (map (jacobian_row amp cen sigma) x).

(** The finite-difference step of [jacobian2d]. *)
Definition eps : R := 1e-5.

(** Row of the empirical branch ([emp=True]) at the sample [(x, y)];
    [err] is that sample's entry of [errs], if [errs] is given. *)
Definition jacobian2d_emp_row (amp xo yo sx sy theta : R) (err : option R)
    (x y : R) : list (option R) :=
  let model := elliptical_gaussian_at x y amp xo yo sx sy theta in
  let diff (shifted : option R) : option R :=
    s ← shifted; m ← model;
    let d := (s - m) / eps in
    match err with
    | None => Some d
    | Some e => div d e
    end in
  let dmds := diff (elliptical_gaussian_at x y (amp + eps) xo yo sx sy theta) in
  let dmdxo := diff (elliptical_gaussian_at x y amp (xo + eps) yo sx sy theta) in
  let dmdyo := diff (elliptical_gaussian_at x y amp xo (yo + eps) sx sy theta) in
  let dmdsx := diff (elliptical_gaussian_at x y amp xo yo (sx + eps) sy theta) in
  let dmdsy := diff (elliptical_gaussian_at x y amp xo yo sx (sy + eps) theta) in
  let dmdtheta := diff (elliptical_gaussian_at x y amp xo yo sx sy (theta + eps)) in
  [dmds; dmdxo; dmdyo; dmdsx; dmdsy; dmdtheta].

(** Row of the analytic branch ([emp=False]) at the sample [(x, y)].
    As in the source, [yyo] is [x - yo]. *)
Definition jacobian2d_ana_row (amp xo yo sx sy theta : R) (x y : R)
    : list (option R) :=
  let model := elliptical_gaussian_at x y amp xo yo sx sy theta in
  let sint := sin theta in
  let cost := cos theta in
  let xxo := x - xo in
  let yyo := x - yo in
  let xcos := cost * xxo in
  let ycos := cost * yyo in
  let xsin := sint * xxo in
  let ysin := sint * yyo in
  let dmds := m ← model; div m amp in
  let dmdxo :=
    a ← div (cost * (xcos + ysin)) (sx ^ 2);
    b ← div (sint * (xsin - ycos)) (sy ^ 2);
    m ← model; Some ((a + b) * m) in
  let dmdyo :=
    a ← div (sint * (xcos + ysin)) (sx ^ 2);
    b ← div (cost * (xsin - ycos)) (sy ^ 2);
    m ← model; Some ((a - b) * m) in
  let dmdsx := m ← model; q ← div m (sx ^ 3); Some (q * (xcos + ysin) ^ 2) in
  let dmdsy := m ← model; q ← div m (sy ^ 3); Some (q * (xsin - ycos) ^ 2) in
  let dmdtheta :=
    m ← model;
    q ← div (m * (sx ^ 2 - sy ^ 2) * (xsin + ycos) * (xcos + ysin)) (sx ^ 2);
    div q (sy ^ 2) in
  [dmds; dmdxo; dmdyo; dmdsx; dmdsy; dmdtheta].

(** Per-sample entries of [errs]: all absent when [errs is None]. *)
Definition errs_of (errs : option (list R)) (n : nat) : list (option R) :=
  match errs with
  | None => replicate n None
  | Some es => Some <$> es
  end.

(** [jacobian2d(pars, xy, emp, errs)] with [xy = (x, y)]: one row per
    sample, columns [(dmds, dmdxo, dmdyo, dmdsx, dmdsy, dmdtheta)]. [errs],
    when given, has one entry per sample. The unused argument [data] is
    left out. *)
Definition jacobian2d (pars : Params) (xy : list R * list R)
    (emp : bool) (errs : option (list R)) : outcome (list (list (option R))) :=
  amp ← par_value pars "amp";
  xo ← par_value pars "xo";
  yo ← par_value pars "yo";
  sx ← par_value pars "sx";
  sy ← par_value pars "sy";
  theta ← par_value pars "theta";
  let '(x, y) := xy in
  if emp then
    mret (zip_with (λ p err, jacobian2d_emp_row amp xo yo sx sy theta err p.1 p.2)
            (zip x y) (errs_of errs (length x)))
  else
    mret (zip_with (jacobian2d_ana_row amp xo yo sx sy theta) x y).

(** ** Multi-component models *)

(** [np.radians] *)
Definition radians (deg : R) : R := deg * PI / 180.

(** [np.array(l).reshape(rows, cols)]: fails unless [rows * cols] is the
    number of entries. *)
Fixpoint chunks (rows cols : nat) (l : list R) : list (list R) :=
  match rows with
  | O => []
  | S rows' => take cols l :: chunks rows' cols (drop cols l)
  end.

Definition reshape (l : list R) (rows cols : nat) : outcome (list (list R)) :=
  if decide (rows * cols = length l)%nat then Returned (chunks rows cols l)
  else Raised ValueError.

(** Element-wise sum of two arrays. *)
Definition add_arrays (a b : list (option R)) : list (option R) :=
  zip_with (λ u v, u' ← u; v' ← v; Some (u' + v')) a b.

(** [result += g] when [result] is an array, [result = g] when it is
    [None]. *)
Definition accumulate (result : option (list (option R)))
    (g : list (option R)) : option (list (option R)) :=
  match result with
  | Some r => Some (add_arrays r g)
  | None => Some g
  end.

(** The loop of [rfunc] in [ntwodgaussian_mpfit]; unpacking a row that does
    not hold six values is a [ValueError]. The value is Python's [None]
    when the loop body never runs. *)
Fixpoint rfunc_mpfit_loop (params : list (list R)) (x y : list R)
    (result : option (list (option R))) : outcome (option (list (option R))) :=
  match params with
  | [] => Returned result
  | p :: rest =>
      match p with
      | [amp; xo; yo; major; minor; pa] =>
          rfunc_mpfit_loop rest x y
            (accumulate result
               (elliptical_gaussian x y amp xo yo major minor (radians pa)))
      | _ => Raised ValueError
      end
  end.

(** [ntwodgaussian_mpfit(inpars)]: the integer division is Python 2's. The
    messages it logs before re-raising are not modelled. *)
Definition ntwodgaussian_mpfit (inpars : list R)
    : outcome (list R → list R → outcome (option (list (option R)))) :=
  params ← reshape inpars (length inpars / 6) 6;
  mret (λ x y, rfunc_mpfit_loop params x y None).

(** The loop of [rfunc] in [ntwodgaussian_lmfit]: every round reads the
    same six names (the prefix is the empty string). *)
Fixpoint rfunc_lmfit_loop (n : nat) (params : Params) (x y : list R)
    (result : option (list (option R))) : outcome (option (list (option R))) :=
  match n with
  | O => Returned result
  | S n' =>
      amp ← par_value params "amp";
      xo ← par_value params "xo";
      yo ← par_value params "yo";
      sx ← par_value params "sx";
      sy ← par_value params "sy";
      theta ← par_value params "theta";
      rfunc_lmfit_loop n' params x y
        (accumulate result (elliptical_gaussian x y amp xo yo sx sy theta))
  end.

(** [ntwodgaussian_lmfit(params)] *)
Definition ntwodgaussian_lmfit (params : Params)
    : list R → list R → outcome (option (list (option R))) :=
  λ x y,
    match components params with
    | None => Raised (AttributeError "components")
    | Some n => rfunc_lmfit_loop n params x y None
    end.

(** ** Observations and masks *)

(** The data handed to a fit driver, with its dimensionality: [do_lmfit]'s
    pair [(data, D)] is [Obs1 d] for [D = 1] and [Obs2 d] for [D = 2]. A
    masked sample is [None]. *)
Inductive observation : Type :=
  | Obs1 (d : list (option R))
  | Obs2 (d : list (list (option R))).

(** Positions of the finite entries of a row. *)
Definition finite_positions (row : list (option R)) : list nat :=
  (λ p, p.1) <$> filter (λ p, is_Some p.2) (imap (λ j v, (j, v)) row).

(** Row and column of every finite entry, in row-major order. *)
Definition finite_positions2 (d : list (list (option R))) : list (nat * nat) :=
  mjoin (imap (λ i row, (λ j, (i, j)) <$> finite_positions row) d).

(** [np.where(np.isfinite(data))]: one index array per dimension. *)
Definition where_finite (data : observation) : list (list nat) :=
  match data with
  | Obs1 d => [finite_positions d]
  | Obs2 d => [(λ p, p.1) <$> finite_positions2 d; (λ p, p.2) <$> finite_positions2 d]
  end.

(** [data[mask]]: the finite values, in the order of the mask. *)
Definition masked_values (data : observation) : list R :=
  match data with
  | Obs1 d => omap (λ v : option R, v) d
  | Obs2 d => omap (λ v : option R, v) (mjoin d)
  end.

(** [np.ravel] of a tuple of index arrays. *)
Definition ravel {A : Type} (arrays : list (list A)) : list A := mjoin arrays.

(** Number of finite samples of an observation. *)
Definition count_finite (data : observation) : nat :=
  match data with
  | Obs1 d => length (filter is_Some d)
  | Obs2 d => length (filter is_Some (mjoin d))
  end.

(** Index arrays as coordinate arrays. *)
Definition coords (idx : list nat) : list R := INR <$> idx.

(** ** Dense matrices and whitening *)

(** An [n]-vector and an [n × n] array are their entries at indices below
    [n]. *)
Definition vec : Type := nat → R.
Definition mat : Type := nat → nat → R.

(** Sum of [f 0 .. f (n-1)]. *)
Fixpoint vsum (n : nat) (f : nat → R) : R :=
  match n with
  | O => 0
  | S k => vsum k f + f k
  end.

(** [A.dot(B)] *)
Definition mmul (n : nat) (A B : mat) : mat :=
  λ i j, vsum n (λ k, A i k * B k j).

(** [np.transpose] *)
Definition mtrans (A : mat) : mat := λ i j, A j i.

(** [np.diag(d)] *)
Definition diag (d : vec) : mat := λ i j, if decide (i = j) then d i else 0.

Definition identity : mat := diag (λ _, 1).

(** Equality of [n × n] arrays. *)
Definition mat_eq (n : nat) (A B : mat) : Prop :=
  ∀ i j, (i < n)%nat → (j < n)%nat → A i j = B i j.

#[global] Instance Rlt_decision : RelDecision Rlt := Rlt_dec.

(** [Q.dot(np.diag(1/np.sqrt(L)))] *)
Definition whitening (n : nat) (L : vec) (Q : mat) : mat :=
  mmul n Q (diag (λ i, 1 / sqrt (L i))).

(** [all(L > 0)] *)
Definition all_positive (n : nat) (L : vec) : bool :=
  forallb (λ i, bool_decide (0 < L i)) (seq 0 n).

(** [v.dot(B)] for an array [v] of [n] entries: one entry without a finite
    value leaves none in the product. *)
Definition vec_dot (n : nat) (v : list (option R)) (B : mat)
    : list (option R) :=
  (λ j, vs ← mapM (λ u : option R, u) v;
        Some (vsum n (λ i, nth i vs 0 * B i j))) <$> seq 0 n.

Section Whitening.

(** [scipy.linalg.eigh] on an [n × n] array: eigenvalues and the matrix
    whose columns are the eigenvectors. *)
Variable eigh : nat → mat → vec * mat.

(** [Bmatrix(C)]; what it prints before exiting is not modelled. *)
Definition Bmatrix (n : nat) (C : mat) : outcome mat :=
  let '(L, Q) := eigh n C in
  if negb (all_positive n L) then Raised (SystemExit 1)
  else
    let S := diag (λ i, 1 / sqrt (L i)) in
    let B := mmul n Q S in
    Returned B.

End Whitening.

(** ** Store *)

(** Objects that a callee may change in place are named by a location. *)
Definition loc : Type := nat.

(** The store of such objects, and the number of calls made so far to the
    external solver. *)
Record world (O : Type) : Type := World {
  heap : gmap loc O;
  solver_calls : nat
}.
Arguments World {O} heap solver_calls.
Arguments heap {O} w.
Arguments solver_calls {O} w.

(** What a driver answers when it is handed a location that holds no
    object. Python references always name an object: the case is there to
    make the drivers total, and no statement below relies on it. *)
Definition unallocated : exn := SolverFailure "unallocated".

(** [model - data[mask]] *)
Definition sub_arrays (model : list (option R)) (values : list R)
    : list (option R) :=
  zip_with (λ m d, m' ← m; Some (m' - d)) model values.

(** The residual of both drivers once the model is evaluated. Subtracting
    an array from Python's [None] goes element by element through the
    array: a [TypeError] at its first entry, and an empty array when there
    is no entry. [B], when given, is square of the size of the residual. *)
Definition residual_of (model : option (list (option R))) (values : list R)
    (B : option mat) : outcome (list (option R)) :=
  match model with
  | None =>
      match values with
      | [] => Returned []
      | _ :: _ => Raised TypeError
      end
  | Some m =>
      let r := sub_arrays m values in
      match B with
      | None => Returned r
      | Some B' => Returned (vec_dot (length r) r B')
      end
  end.

(** ** Fit driver over [mpfit] *)

(** One dictionary of [parinfo]. *)
Record parinfo_entry : Type := mkParinfo {
  pvalue : R;
  fixed : bool;
  parname : string;
  limits : R * R;
  limited : bool * bool
}.

(** The object [mpfit] returns; [do_mpfit] assigns its [dof]. *)
Record mpfit_object : Type := mkMpfit {
  mp_params : list R;
  perror : list R;
  status : Z;
  dof : Z
}.

Definition set_dof (mp : mpfit_object) (d : Z) : mpfit_object :=
  {| mp_params := mp_params mp; perror := perror mp; status := status mp;
     dof := d |}.

(** The entries of [parinfo] that are not fixed. *)
Definition free_entries (parinfo : list parinfo_entry) : list parinfo_entry :=
  filter (λ e, fixed e = false) parinfo.

Section MpfitDriver.

(** [mpfit(erfunc, parinfo=parinfo, quiet=True)]: its answer, and the
    contents of the [parinfo] list it was handed as it leaves them. *)
Variable mpfit :
  (list R → outcome (Z * list (option R))) → list parinfo_entry →
  outcome mpfit_object * list parinfo_entry.

(** [erfunc] of [do_mpfit]: the model function takes two index arrays. *)
Definition erfunc (data : observation) (B : option mat) (p : list R)
    : outcome (Z * list (option R)) :=
  f ← ntwodgaussian_mpfit p;
  model ← match where_finite data with
          | [xs; ys] => f (coords xs) (coords ys)
          | _ => Raised TypeError
          end;
  r ← residual_of model (masked_values data) B;
  mret (0%Z, r).

(** [do_mpfit(data, parinfo, B)]: [parinfo] is the caller's list. *)
Definition do_mpfit (data : observation) (parinfo : loc) (B : option mat)
    (w : world (list parinfo_entry))
    : outcome (mpfit_object * loc) * world (list parinfo_entry) :=
  match heap w !! parinfo with
  | None => (Raised unallocated, w)
  | Some entries0 =>
      let mask := where_finite data in
      let '(answer, entries1) := mpfit (erfunc data B) entries0 in
      let w1 := World (<[parinfo := entries1]> (heap w)) (S (solver_calls w)) in
      match answer with
      | Raised e => (Raised e, w1)
      | Returned mp =>
          let d := (Z.of_nat (length (ravel mask))
                    - Z.of_nat (length entries1))%Z in
          (Returned (set_dof mp d, parinfo), w1)
      end
  end.

End MpfitDriver.

(** ** Fit driver over [lmfit] *)

Section LmfitDriver.

(** The object [lmfit.minimize] returns. *)
Variable minimizer : Type.

(** [lmfit.minimize(residual, params, args, Dfun)]: its answer, and the
    [params] object it was handed as it leaves it. *)
Variable minimize :
  (Params → outcome (list (option R))) →
  option (Params → outcome (list (list (option R)))) →
  Params → outcome minimizer * Params.

(** The model of [residual]: [ntwodgaussian_lmfit] on the two index
    arrays for [D = 2], [gaussian] on [mask[0]] otherwise. *)
Definition lmfit_model (data : observation) (params : Params)
    : outcome (option (list (option R))) :=
  match data, where_finite data with
  | Obs2 _, [xs; ys] => ntwodgaussian_lmfit params (coords xs) (coords ys)
  | Obs1 _, [xs] =>
      amp ← par_value params "amp";
      cen ← par_value params "cen";
      sigma ← par_value params "sigma";
      mret (Some (gaussian (coords xs) amp cen sigma))
  | _, _ => Raised TypeError
  end.

(** [residual(params, mask, data)] *)
Definition residual (data : observation) (B : option mat) (params : Params)
    : outcome (list (option R)) :=
  model ← lmfit_model data params;
  residual_of model (masked_values data) B.

(** [jfn] applied to [(params, mask, data)]: [jacobian2d] runs with its
    defaults [emp=True] and [errs=None]. *)
Definition jfn (data : observation) (params : Params)
    : outcome (list (list (option R))) :=
  match data, where_finite data with
  | Obs2 _, [xs; ys] => jacobian2d params (coords xs, coords ys) true None
  | Obs1 _, [xs] => jacobian params (coords xs)
  | _, _ => Raised TypeError
  end.

(** [do_lmfit(data, params, B, D, dojac)]: [params] is the caller's
    object, [copy.deepcopy] makes a new object with the same contents. *)
Definition do_lmfit (data : observation) (params : loc) (B : option mat)
    (dojac : bool) (w : world Params)
    : outcome (minimizer * loc) * world Params :=
  match heap w !! params with
  | None => (Raised unallocated, w)
  | Some contents =>
      let copy := fresh (dom (heap w)) in
      let h1 := <[copy := contents]> (heap w) in
      let Dfun := if dojac then Some (jfn data) else None in
      let '(answer, contents1) := minimize (residual data B) Dfun contents in
      let w1 := World (<[copy := contents1]> h1) (S (solver_calls w)) in
      match answer with
      | Raised e => (Raised e, w1)
      | Returned result => (Returned (result, copy), w1)
      end
  end.

End LmfitDriver.

(** ** Columns of a Jacobian and parameter sets *)


(** A parameter that is free, unbounded and carries no error estimate, as
    [params.add(name, value=v)] makes it. *)
Definition free_param (v : R) : Param := mkParam v true None None None.

(** The parameter set of one elliptical Gaussian, as [test2d] builds it
    (bounds apart). *)
Definition gaussian2d_params (amp xo yo sx sy theta : R) : Params :=
  mkParams
    (<["amp" := free_param amp]> (<["xo" := free_param xo]>
     (<["yo" := free_param yo]> (<["sx" := free_param sx]>
     (<["sy" := free_param sy]> (<["theta" := free_param theta]> ∅))))))
    (Some 1%nat).

(** The parameter set of a one-dimensional Gaussian, as [test1d] builds it
    (bounds apart). *)
Definition gaussian1d_params (amp cen sigma : R) : Params :=
  mkParams
    (<["amp" := free_param amp]> (<["cen" := free_param cen]>
     (<["sigma" := free_param sigma]> ∅)))
    None.

(** The six values [jacobian2d] reads from [pars]. *)
Definition reads2d (pars : Params) (amp xo yo sx sy theta : R) : Prop :=
  par_value pars "amp" = Returned amp ∧ par_value pars "xo" = Returned xo
  ∧ par_value pars "yo" = Returned yo ∧ par_value pars "sx" = Returned sx
  ∧ par_value pars "sy" = Returned sy ∧ par_value pars "theta" = Returned theta.

(** The three values [jacobian] reads from [pars]. *)
Definition reads1d (pars : Params) (amp cen sigma : R) : Prop :=
  par_value pars "amp" = Returned amp ∧ par_value pars "cen" = Returned cen
  ∧ par_value pars "sigma" = Returned sigma.

(** ** The multi-component model as the specification words it *)

(** One group of six values [(amp, x0, y0, major, minor, pa)]. *)
Definition component : Type := R * R * R * R * R * R.

(** A flat sequence read as groups of six; none when values are left
    over. *)
Fixpoint groups_of_six (l : list R) : option (list component) :=
  match l with
  | [] => Some []
  | a :: b :: c :: d :: e :: f :: rest =>
      cs ← groups_of_six rest; Some ((a, b, c, d, e, f) :: cs)
  | _ => None
  end.

(** The elliptical Gaussian of one group; the position angle [pa] is in
    degrees, as the docstring of [ntwodgaussian_mpfit] has it. *)
Definition component_model (x y : list R) (c : component) : list (option R) :=
  let '(amp, xo, yo, major, minor, pa) := c in
  elliptical_gaussian x y amp xo yo major minor (radians pa).

(** The array of zeros of the shape of the coordinate arrays. *)
Definition zeros (x y : list R) : list (option R) :=
  replicate (length x `min` length y) (Some 0).

(** Element-wise sum of the Gaussians of all groups. *)
Definition multi_gaussian_sum (cs : list component) (x y : list R)
    : list (option R) :=
  foldr (λ c acc, add_arrays (component_model x y c) acc) (zeros x y) cs.

(** The row that holds the values of one group. *)
Definition row_of (c : component) : list R :=
  let '(amp, xo, yo, major, minor, pa) := c in [amp; xo; yo; major; minor; pa].

(** ** Eigenvalues, definiteness and inverses *)

(** [A.dot(v)] for a vector [v]. *)
Definition mat_vec (n : nat) (A : mat) (v : vec) : vec :=
  λ i, vsum n (λ k, A i k * v k).

Definition nonzero (n : nat) (v : vec) : Prop := ∃ k, (k < n)%nat ∧ v k ≠ 0.

Definition is_eigenvalue (n : nat) (C : mat) (lam : R) : Prop :=
  ∃ v, nonzero n v ∧ ∀ i, (i < n)%nat → mat_vec n C v i = lam * v i.

Definition symmetric (n : nat) (C : mat) : Prop :=
  ∀ i j, (i < n)%nat → (j < n)%nat → C i j = C j i.

Definition positive_definite (n : nat) (C : mat) : Prop :=
  ∀ v, nonzero n v → 0 < vsum n (λ i, v i * mat_vec n C v i).

(** [X] is the inverse of [C]. *)
Definition is_inverse (n : nat) (C X : mat) : Prop :=
  mat_eq n (mmul n C X) identity ∧ mat_eq n (mmul n X C) identity.

(** What [scipy.linalg.eigh] promises for a real symmetric [C]: the columns
    of [Q] are eigenvectors for the eigenvalues [L], and [Q] is
    orthogonal. *)
Definition eigh_contract (n : nat) (C : mat) (LQ : vec * mat) : Prop :=
  mat_eq n (mmul n C LQ.2) (mmul n LQ.2 (diag LQ.1))
  ∧ mat_eq n (mmul n (mtrans LQ.2) LQ.2) identity
  ∧ mat_eq n (mmul n LQ.2 (mtrans LQ.2)) identity.

(** An eigensolver for diagonal arrays: the diagonal, and the identity. *)
Definition eigh_diagonal (n : nat) (C : mat) : vec * mat :=
  (λ i, C i i, identity).

(** Two diagonal 2 × 2 arrays: one with a negative eigenvalue, one
    positive-definite. *)
Definition indefinite_2x2 : mat := diag (λ i, if decide (i = 0%nat) then 1 else -1).
Definition definite_2x2 : mat := diag (λ i, if decide (i = 0%nat) then 4 else 9).

(** The correlation matrix of three samples at the coordinates 0, 0 and 1
    for [sigma = 1.5], entry by entry as [Cmatrix] computes it: the two
    samples at the same place give two equal rows. *)
Definition coincident_samples (i : nat) : R :=
  if decide (i = 2%nat) then 1 else 0.

Definition coincident_3x3 : mat :=
  λ i j,
    1 * exp (-(1 / 2) * ((coincident_samples j - coincident_samples i)
                          / (1 * 1.5)) ^ 2).

(** ** Solvers and data used in examples *)

(** A solver in the shape of [mpfit] that answers with the start values and
    leaves [parinfo] as it found it. *)
Definition mpfit_keep
    (erfunc : list R → outcome (Z * list (option R)))
    (parinfo : list parinfo_entry)
    : outcome mpfit_object * list parinfo_entry :=
  (Returned (mkMpfit (pvalue <$> parinfo) [] 1 0), parinfo).

(** A solver in the shape of [lmfit.minimize] that stores its values and an
    error estimate in the [params] it was handed, as [lmfit] does. *)
Definition fitted (p : Param) : Param :=
  mkParam (value p + 1) (vary p) (lower p) (upper p) (Some 1).

Definition minimize_in_place
    (residual : Params → outcome (list (option R)))
    (Dfun : option (Params → outcome (list (list (option R)))))
    (params : Params) : outcome unit * Params :=
  (Returned (), mkParams (fitted <$> entries params) (components params)).

(** A free, unbounded entry of [parinfo], and the six entries of one
    component as [test_mpfit] lists them (limits apart). *)
Definition free_entry (name : string) (v : R) : parinfo_entry :=
  mkParinfo v false name (0, 0) (false, false).

Definition one_component : list parinfo_entry :=
  [free_entry "1:amp" 1; free_entry "1:xo" 1.2; free_entry "1:yo" 1;
   free_entry "1:major" 2; free_entry "1:minor" 1; free_entry "1:pa" 0].

(** A 2 × 4 image without masked pixels, and a 1 × 1 image. *)
Definition image_2x4 : observation :=
  Obs2 [[Some 1; Some 2; Some 3; Some 4]; [Some 5; Some 6; Some 7; Some 8]].

Definition image_1x1 : observation := Obs2 [[Some 1]].

(** Number of dimensions of an observation. *)
Definition ndim (data : observation) : nat :=
  match data with
  | Obs1 _ => 1
  | Obs2 _ => 2
  end.

(** Number of entries of a [Params] that the solver varies. *)
Definition free_params (params : Params) : nat :=
  size (filter (λ kv, vary kv.2 = true) (entries params)).

(** The store of a caller of [do_mpfit] that holds [one_component] at
    location 0, and of a caller of [do_lmfit] that holds the parameters of
    [test2d] (bounds apart) at location 0; no solver call was made yet. *)
Definition mpfit_caller : world (list parinfo_entry) :=
  World {[ 0%nat := one_component ]} 0.

Definition lmfit_caller : world Params :=
  World {[ 0%nat := gaussian2d_params 1 7.5 6 2.54 1.27 0 ]} 0.

(** ** Further definitions *)

(** The value of [gaussian] at one sample as a real function of the
    parameters (0 where the code has no value). *)
Definition gaussian_value (x amp cen sigma : R) : R :=
  default 0 (gaussian_at x amp cen sigma).

(** The first of [names] that [pars] does not hold, in reading order. *)
Definition first_missing (names : list string) (pars : Params) : option string :=
  list_find (λ name, entries pars !! name = None) names ≫= λ p, Some p.2.

(** Magnitudes whose squares are finite floats, and other than zero for a
    width: for widths of moderate size and bounded coordinates the model
    on real numbers describes what the source computes on floats (no
    overflow to [inf], no quotient by a square that underflowed to 0). *)
Definition bounded (v : R) : Prop := Rabs v <= 1e100.

Definition moderate (v : R) : Prop := 1e-100 <= Rabs v <= 1e100.

(** An array with every value multiplied by [n]. *)
Definition scaled (n : nat) (g : list (option R)) : list (option R) :=
  (λ v, v ≫= λ r, Some (INR n * r)) <$> g.

(** ** Correlation matrices *)

(** [np.vstack(rows)] for rows of one length: a [ValueError] when there is
    no row to stack. *)
Definition vstack (rows : list (list (option R)))
    : outcome (list (list (option R))) :=
  match rows with
  | [] => Raised ValueError
  | _ :: _ => Returned rows
  end.

(** [Cmatrix(x, sigma)]: the stack of the rows [gaussian(x, 1., i, 1.*sigma)]
    for [i] in [x]. *)
Definition Cmatrix (x : list R) (sigma : R) : outcome (list (list (option R))) :=
  vstack ((λ i, gaussian x 1 i (1 * sigma)) <$> x).

(** [Cmatrix2d(x, y, sigmax, sigmay, theta)]: the stack of the rows
    [elliptical_gaussian(x, y, 1, i, j, sigmax, sigmay, theta)] for [(i, j)]
    in [zip(x, y)]. *)
Definition Cmatrix2d (x y : list R) (sigmax sigmay theta : R)
    : outcome (list (list (option R))) :=
  let f := λ i j, elliptical_gaussian x y 1 i j sigmax sigmay theta in
  vstack ((λ p, f p.1 p.2) <$> zip x y).

(** Entry [(i, j)] of an array given by its rows. *)
Definition entry (C : list (list (option R))) (i j : nat) : option (option R) :=
  C !! i ≫= λ row, row !! j.

(** ** Cramér-Rao bounds *)

(** [np.sqrt] of one entry: no value for a negative entry. *)
Definition sqrt_entry (d : R) : option R :=
  if Rle_dec 0 d then Some (sqrt d) else None.

Section CramerRao.

(** [scipy.linalg.inv] on an [n × n] array. *)
Variable inv : nat → mat → outcome mat.

(** [CRB_errs(jac, C, B)] for a Jacobian of [m] rows (samples) and [p]
    columns (parameters). *)
Definition CRB_errs (m p : nat) (jac C : mat) (B : option mat)
    : outcome (list (option R)) :=
  fim_inv ←
    match B with
    | Some B' =>
        inv p (mmul m (mmul m (mmul m (mtrans jac) B') (mtrans B')) jac)
    | None =>
        Cinv ← inv m C;
        let fim := mmul m (mmul m (mtrans jac) Cinv) jac in
        inv p fim
    end;
  let errs := (λ i, sqrt_entry (fim_inv i i)) <$> seq 0 p in
  mret errs.

End CramerRao.

(** An inverse for diagonal arrays: the reciprocals of the diagonal. *)
Definition inv_diagonal (n : nat) (A : mat) : outcome mat :=
  Returned (diag (λ i, / A i i)).

(** ** Geometric mean *)

(** A float that may be infinite or not a number. *)
Inductive fvalue : Type :=
  | Fin (r : R)
  | PosInf
  | NegInf
  | NaN.

(** [np.inf in data] *)
Definition has_inf (data : list fvalue) : bool :=
  existsb (λ v, match v with PosInf => true | _ => false end) data.

(** [data[np.isfinite(data)]] *)
Definition finite_values (data : list fvalue) : list R :=
  omap (λ v, match v with Fin r => Some r | _ => None end) data.

(** [np.min] of a non-empty array given by its first entry and the rest. *)
Definition array_min (first : R) (rest : list R) : R := foldr Rmin first rest.

(** [np.mean] *)
Definition mean (l : list R) : R := foldr Rplus 0 l / INR (length l).

(** [np.nanstd] of an array without [nan]: the root of the mean squared
    deviation from the mean. *)
Definition nanstd (l : list R) : R :=
  sqrt (mean ((λ v, (v - mean l) ^ 2) <$> l)).

(** [gmean(indata)] for a flat array of floats. The arithmetic is that of
    real numbers: it describes the source for data far from the overflow
    threshold of the floats, where [finite + scale] stays finite. *)
Definition gmean (indata : list fvalue) : fvalue * fvalue :=
  if has_inf indata then (PosInf, PosInf)
  else
    match finite_values indata with
    | [] => (NaN, NaN)
    | first :: rest =>
        let scale := Rabs (array_min first rest) + 1 in
        let finite := (λ v, v + scale) <$> (first :: rest) in
        let lfinite := ln <$> finite in
        let flux := exp (mean lfinite) - scale in
        let error := nanstd lfinite * flux in
        (Fin flux, Fin (Rabs error))
    end.

(** * Properties *)

(** ** Division and the model at one sample *)

Lemma div_defined (a b : R) : b ≠ 0 → div a b = Some (a / b).
Proof.
  intros Hb. unfold div. destruct (Req_dec_T b 0); [contradiction | reflexivity].
Qed.





Lemma elliptical_gaussian_at_defined (x y amp xo yo sx sy theta : R) :
  sx ≠ 0 → sy ≠ 0 →
  elliptical_gaussian_at x y amp xo yo sx sy theta
  = Some (amp * exp (((((x - xo) * cos theta + (y - yo) * sin theta) ^ 2 / sx ^ 2
                      + ((x - xo) * sin theta - (y - yo) * cos theta) ^ 2 / sy ^ 2))
                     * (-1 / 2))).
Proof.
  intros Hx Hy. unfold elliptical_gaussian_at.
  rewrite !div_defined by (apply pow_nonzero; assumption).
  reflexivity.
Qed.

(** ** Axis canonicalization leaves the model unchanged *)



(** ** The angle is brought into the canonical interval *)

Lemma theta_raise_more_fuel (n : nat) :
  ∀ (m : nat) (theta r : R),
    theta_raise n theta = Some r → (n ≤ m)%nat → theta_raise m theta = Some r.
Proof.
  induction n as [| n IH]; intros m theta r Hrun Hle.
  - simpl in Hrun. destruct m; simpl;
      destruct (Rle_dec theta (-1 * PI / 2)); congruence.
  - destruct m as [| m]; [lia |]. simpl in *.
    destruct (Rle_dec theta (-1 * PI / 2)); [| assumption].
    apply IH; [assumption | lia].
Qed.

Lemma theta_lower_more_fuel (n : nat) :
  ∀ (m : nat) (theta r : R),
    theta_lower n theta = Some r → (n ≤ m)%nat → theta_lower m theta = Some r.
Proof.
  induction n as [| n IH]; intros m theta r Hrun Hle.
  - simpl in Hrun. destruct m; simpl;
      destruct (Rgt_dec theta (PI / 2)); congruence.
  - destruct m as [| m]; [lia |]. simpl in *.
    destruct (Rgt_dec theta (PI / 2)); [| assumption].
    apply IH; [assumption | lia].
Qed.

Lemma theta_limit_more_fuel (n m : nat) (theta r : R) :
  theta_limit n theta = Some r → (n ≤ m)%nat → theta_limit m theta = Some r.
Proof.
  unfold theta_limit. intros Hrun Hle.
  destruct (theta_raise n theta) as [t |] eqn:Hup; [| discriminate].
  simpl in Hrun.
  rewrite (theta_raise_more_fuel n m theta t Hup Hle). simpl.
  eapply theta_lower_more_fuel; eassumption.
Qed.

(** The first loop stops once enough half turns have been added. *)
Lemma theta_raise_stops (n : nat) :
  ∀ theta : R,
    - PI / 2 < theta + INR n * PI →
    ∃ (r : R) (k : nat),
      theta_raise n theta = Some r ∧ r = theta + INR k * PI
      ∧ - PI / 2 < r ∧ (r <= PI / 2 ∨ r = theta).
Proof.
  induction n as [| n IH]; intros theta Hn.
  - exists theta, 0%nat. simpl in *.
    destruct (Rle_dec theta (-1 * PI / 2)); [lra |].
    repeat split; [lra | lra | right; reflexivity].
  - simpl theta_raise. destruct (Rle_dec theta (-1 * PI / 2)) as [Hlow | Hhigh].
    + destruct (IH (theta + PI)) as (r & k & Hrun & Hr & Hgt & Hcase).
      { rewrite S_INR in Hn. lra. }
      exists r, (S k). rewrite S_INR. repeat split; [assumption | lra | assumption |].
      left. destruct Hcase; lra.
    + exists theta, 0%nat. simpl. repeat split; [lra | lra | right; reflexivity].
Qed.

(** The second loop stops once enough half turns have been removed. *)
Lemma theta_lower_stops (n : nat) :
  ∀ theta : R,
    theta - INR n * PI <= PI / 2 →
    ∃ (r : R) (k : nat),
      theta_lower n theta = Some r ∧ r = theta - INR k * PI
      ∧ r <= PI / 2 ∧ (- PI / 2 < r ∨ r = theta).
Proof.
  induction n as [| n IH]; intros theta Hn.
  - exists theta, 0%nat. simpl in *.
    destruct (Rgt_dec theta (PI / 2)); [lra |].
    repeat split; [lra | lra | right; reflexivity].
  - simpl theta_lower. destruct (Rgt_dec theta (PI / 2)) as [Hhigh | Hlow].
    + destruct (IH (theta - PI)) as (r & k & Hrun & Hr & Hle & Hcase).
      { rewrite S_INR in Hn. lra. }
      exists r, (S k). rewrite S_INR. repeat split; [assumption | lra | assumption |].
      left. destruct Hcase; lra.
    + exists theta, 0%nat. simpl. repeat split; [lra | lra | right; reflexivity].
Qed.

(** Enough fuel exists for any real bound. *)
Lemma half_turns_exceed (a : R) : ∃ n : nat, a < INR n * PI.
Proof.
  destruct (INR_unbounded (a / PI)) as [n Hn]. exists n.
  pose proof PI_RGT_0 as Hpi.
  apply Rmult_lt_compat_r with (r := PI) in Hn; [| assumption].
  unfold Rdiv in Hn. rewrite Rmult_assoc, Rinv_l in Hn by lra. lra.
Qed.

(** [theta_limit] returns, and its value is the angle shifted by a whole
    number of half turns into the canonical interval. *)
Lemma theta_limit_returns (theta : R) :
  ∃ (n : nat) (r : R) (z : Z),
    theta_limit n theta = Some r ∧ r = theta + IZR z * PI
    ∧ - PI / 2 < r ∧ r <= PI / 2.
Proof.
  destruct (half_turns_exceed (- PI / 2 - theta)) as [n1 Hn1].
  destruct (theta_raise_stops n1 theta) as (t & k1 & Hup & Ht & Htgt & _); [lra |].
  destruct (half_turns_exceed (t - PI / 2)) as [n2 Hn2].
  destruct (theta_lower_stops n2 t) as (r & k2 & Hdown & Hr & Hrle & Hcase); [lra |].
  exists (Nat.max n1 n2), r, (Z.of_nat k1 - Z.of_nat k2)%Z.
  repeat split.
  - unfold theta_limit.
    rewrite (theta_raise_more_fuel n1 _ theta t Hup) by lia. simpl.
    apply (theta_lower_more_fuel n2); [assumption | lia].
  - rewrite minus_IZR, <- !INR_IZR_INZ. lra.
  - destruct Hcase; lra.
  - assumption.
Qed.

(** Two angles of the canonical interval that differ by a whole number of
    half turns are the same angle. *)
Lemma canonical_angle_unique (r1 r2 : R) (z : Z) :
  - PI / 2 < r1 → r1 <= PI / 2 → - PI / 2 < r2 → r2 <= PI / 2 →
  r1 = r2 + IZR z * PI → r1 = r2.
Proof.
  intros H1 H1' H2 H2' Heq.
  pose proof PI_RGT_0 as Hpi.
  assert (Hz : z = 0%Z).
  { assert (Hlt : IZR z < IZR 1).
    { apply Rmult_lt_reg_r with (r := PI); [assumption |]. lra. }
    assert (Hgt : IZR (-1) < IZR z).
    { apply Rmult_lt_reg_r with (r := PI); [assumption |]. lra. }
    apply lt_IZR in Hlt, Hgt. lia. }
  subst z. lra.
Qed.

(** A half turn is brought back to zero by one round of the second loop. *)
Example theta_limit_half_turn : theta_limit 1 PI = Some (PI - PI).
Proof.
  pose proof PI_RGT_0 as Hpi. unfold theta_limit. simpl.
  destruct (Rle_dec PI (-1 * PI / 2)); [lra |]. simpl.
  destruct (Rgt_dec PI (PI / 2)); [| lra].
  destruct (Rgt_dec (PI - PI) (PI / 2)); [lra | reflexivity].
Qed.

(** What the loops compute in exact arithmetic: for every real angle some
    amount of fuel lets both loops finish, any run that finishes gives the
    same value, that value lies in the half-open interval (-pi/2, pi/2],
    and the angle plus pi has the same value. *)
Theorem theta_limit_canonical (theta : R) :
  ∃ (n : nat) (r : R),
    - PI / 2 < r ∧ r <= PI / 2
    ∧ (∀ m, (n ≤ m)%nat → theta_limit m theta = Some r)
    ∧ (∀ m, (n ≤ m)%nat → theta_limit m (theta + PI) = Some r)
    ∧ (∀ m r', theta_limit m theta = Some r' → r' = r)
    ∧ (∀ m r', theta_limit m (theta + PI) = Some r' → r' = r).
Proof.
  destruct (theta_limit_returns theta) as (n1 & r & z1 & Hrun1 & Hr & Hlo & Hhi).
  destruct (theta_limit_returns (theta + PI))
    as (n2 & r2 & z2 & Hrun2 & Hr2 & Hlo2 & Hhi2).
  assert (Hsame : r2 = r).
  { apply (canonical_angle_unique r2 r (z2 + 1 - z1)); try assumption.
    rewrite minus_IZR, plus_IZR. lra. }
  clear Hr Hr2. subst r2.
  exists (Nat.max n1 n2), r. repeat split; try assumption.
  - intros m Hm. apply (theta_limit_more_fuel n1); [assumption | lia].
  - intros m Hm. apply (theta_limit_more_fuel n2); [assumption | lia].
  - intros m r' Hrun.
    pose proof (theta_limit_more_fuel m (Nat.max m n1) theta r' Hrun) as Ha.
    pose proof (theta_limit_more_fuel n1 (Nat.max m n1) theta r Hrun1) as Hb.
    rewrite Ha in Hb by lia. specialize (Hb ltac:(lia)). congruence.
  - intros m r' Hrun.
    pose proof (theta_limit_more_fuel m (Nat.max m n2) (theta + PI) r' Hrun) as Ha.
    pose proof (theta_limit_more_fuel n2 (Nat.max m n2) (theta + PI) r Hrun2) as Hb.
    rewrite Ha in Hb by lia. specialize (Hb ltac:(lia)). congruence.
Qed.

(** ** The loops on floats *)

(** A moderate angle is reduced on floats as on reals. *)
Example theta_limit_of_double_three :
  Double.theta_limit 1 3%float = Some (3 - Double.pi)%float.
Proof. reflexivity. Qed.

(** At 1e17 the spacing of the floats is 16: taking [np.pi] away gives
    1e17 again. *)
Lemma pi_absorbed : (1e17 - Double.pi)%float = 1e17%float.
Proof. reflexivity. Qed.

Lemma theta_lower_stuck (fuel : nat) : Double.theta_lower fuel 1e17%float = None.
Proof.
  induction fuel as [| fuel IH]; [reflexivity |].
  change (Double.theta_lower (S fuel) 1e17%float)
    with (Double.theta_lower fuel (1e17 - Double.pi)%float).
  rewrite pi_absorbed. exact IH.
Qed.

(** C8. On the floats of the source [theta_limit] does not terminate for
    every angle: at [theta = 1e17] the first loop is not entered, the
    condition of the second loop holds, and its body [theta -= np.pi]
    leaves [theta] as it is, so no number of rounds lets the call return,
    and no angle of (-pi/2, pi/2] is produced. *)
Theorem theta_limit_stuck_at_1e17 :
  Double.theta_raise 0 1e17%float = Some 1e17%float
  ∧ (Double.pi / 2 <? 1e17)%float = true
  ∧ (1e17 - Double.pi)%float = 1e17%float
  ∧ ∀ fuel, Double.theta_limit fuel 1e17%float = None.
Proof.
  split; [reflexivity |]. split; [reflexivity |]. split; [exact pi_absorbed |].
  intros fuel. unfold Double.theta_limit.
  assert (Hraise : Double.theta_raise fuel 1e17%float = Some 1e17%float)
    by (destruct fuel; reflexivity).
  rewrite Hraise. simpl. apply theta_lower_stuck.
Qed.

Lemma reads2d_gaussian2d_params (amp xo yo sx sy theta : R) :
  reads2d (gaussian2d_params amp xo yo sx sy theta) amp xo yo sx sy theta.
Proof. repeat split. Qed.

Lemma reads1d_gaussian1d_params (amp cen sigma : R) :
  reads1d (gaussian1d_params amp cen sigma) amp cen sigma.
Proof. repeat split. Qed.

(** ** The two modes of [jacobian2d] *)

Lemma jacobian2d_analytic (pars : Params) (x y : list R)
    (amp xo yo sx sy theta : R) (errs : option (list R)) :
  reads2d pars amp xo yo sx sy theta →
  jacobian2d pars (x, y) false errs
  = Returned (zip_with (jacobian2d_ana_row amp xo yo sx sy theta) x y).
Proof.
  intros (Ha & Hxo & Hyo & Hsx & Hsy & Ht). unfold jacobian2d.
  rewrite Ha, Hxo, Hyo, Hsx, Hsy, Ht. reflexivity.
Qed.

Lemma jacobian2d_empirical (pars : Params) (x y : list R)
    (amp xo yo sx sy theta : R) (errs : option (list R)) :
  reads2d pars amp xo yo sx sy theta →
  jacobian2d pars (x, y) true errs
  = Returned (zip_with
      (λ p err, jacobian2d_emp_row amp xo yo sx sy theta err p.1 p.2)
      (zip x y) (errs_of errs (length x))).
Proof.
  intros (Ha & Hxo & Hyo & Hsx & Hsy & Ht). unfold jacobian2d.
  rewrite Ha, Hxo, Hyo, Hsx, Hsy, Ht. reflexivity.
Qed.

Lemma exp_increment (a b : R) : exp b * (a - b) <= exp a - exp b.
Proof.
  replace a with (b + (a - b)) at 2 by ring. rewrite exp_plus.
  pose proof (exp_pos b) as Hb. pose proof (exp_ineq1_le (a - b)) as Hab.
  nra.
Qed.

Lemma exp_minus_half : 1 / 2 < exp (-1 / 2).
Proof.
  pose proof (exp_ineq1 (-1 / 2)) as H. lra.
Qed.

(** C1. The two modes of [jacobian2d] do not agree. For the unit circular
    Gaussian at the origin ([amp = 1], [xo = yo = 0], [sx = sy = 1],
    [theta = 0]) and the single sample [(x, y) = (0, 1)], the analytic mode
    gives 0 for the derivative with respect to [yo] (column 2), because it
    takes its [y] offset from [x]; the empirical mode gives more than 0.49
    there (the derivative is [exp (-1/2)], about 0.61). *)
Theorem jacobian2d_modes_disagree :
  ∃ (ana emp : list (option R)) (d : R),
    jacobian2d (gaussian2d_params 1 0 0 1 1 0) ([0], [1]) false None
    = Returned [ana]
    ∧ jacobian2d (gaussian2d_params 1 0 0 1 1 0) ([0], [1]) true None
      = Returned [emp]
    ∧ ana !! 2%nat = Some (Some 0)
    ∧ emp !! 2%nat = Some (Some d)
    ∧ 0.49 < d.
Proof.
  pose proof (reads2d_gaussian2d_params 1 0 0 1 1 0) as Hreads.
  rewrite (jacobian2d_analytic _ _ _ _ _ _ _ _ _ _ Hreads).
  rewrite (jacobian2d_empirical _ _ _ _ _ _ _ _ _ _ Hreads).
  simpl zip_with.
  do 3 eexists.
  split; [reflexivity |]. split; [reflexivity |].
  split; [| split].
  - unfold jacobian2d_ana_row. simpl lookup.
    rewrite (elliptical_gaussian_at_defined 0 1 1 0 0 1 1 0) by lra.
    rewrite sin_0, cos_0.
    rewrite !div_defined by lra. simpl. do 2 f_equal. field.
  - unfold jacobian2d_emp_row. simpl lookup.
    rewrite !elliptical_gaussian_at_defined by lra.
    rewrite sin_0, cos_0. simpl. reflexivity.
  - match goal with
    | |- _ < (1 * exp ?u - 1 * exp ?v) / eps => set (a := u); set (b := v)
    end.
    assert (Hb : b = -1 / 2) by (unfold b; field).
    assert (Hab : a - b = eps * (1 - eps / 2)) by (unfold a, b; field).
    pose proof (exp_increment a b) as Hinc.
    pose proof exp_minus_half as Hhalf.
    rewrite Hab in Hinc. rewrite Hb in *.
    assert (Heps : 0 < eps) by (unfold eps; lra).
    apply Rmult_lt_reg_r with (r := eps); [assumption |].
    unfold Rdiv at 1. rewrite Rmult_assoc, Rinv_l, Rmult_1_r by lra.
    unfold eps in *. nra.
Qed.

(** ** The amplitude column of the analytic Jacobians *)

Lemma gaussian_at_defined (x amp cen sigma : R) :
  sigma ≠ 0 →
  gaussian_at x amp cen sigma
  = Some (amp * exp (- (1 / 2) * ((x - cen) / sigma) ^ 2)).
Proof. intros Hs. unfold gaussian_at. rewrite div_defined by assumption. reflexivity. Qed.












(** ** The multi-component model *)

Lemma groups_of_six_chunks :
  ∀ (cs : list component) (l : list R),
    groups_of_six l = Some cs →
    length l = (length cs * 6)%nat ∧ chunks (length cs) 6 l = row_of <$> cs.
Proof.
  induction cs as [| c cs IH]; intros l Hl.
  - destruct l as [| a [| b [| c [| d [| e [| f rest]]]]]]; simpl in Hl;
      try discriminate; [split; reflexivity |].
    destruct (groups_of_six rest); discriminate.
  - destruct l as [| a [| b [| c' [| d [| e [| f rest]]]]]]; simpl in Hl;
      try discriminate.
    destruct (groups_of_six rest) as [cs' |] eqn:Hrest; [| discriminate].
    simpl in Hl. injection Hl as <- <-.
    destruct (IH rest Hrest) as [Hlen Hch]. split.
    + simpl. rewrite Hlen. reflexivity.
    + simpl. rewrite take_0, drop_0, Hch. reflexivity.
Qed.

Lemma groups_of_six_total :
  ∀ (n : nat) (l : list R),
    length l = (n * 6)%nat → ∃ cs, groups_of_six l = Some cs ∧ length cs = n.
Proof.
  induction n as [| n IH]; intros l Hlen.
  - destruct l; [| discriminate]. exists []. split; reflexivity.
  - destruct l as [| a [| b [| c [| d [| e [| f rest]]]]]]; simpl in Hlen;
      try discriminate.
    destruct (IH rest) as (cs & Hcs & Hn); [simpl in *; lia |].
    exists ((a, b, c, d, e, f) :: cs). simpl. rewrite Hcs. simpl.
    split; [reflexivity | lia].
Qed.

Lemma groups_of_six_length (l : list R) (cs : list component) :
  groups_of_six l = Some cs → length cs = (length l / 6)%nat.
Proof.
  intros H. apply groups_of_six_chunks in H as [Hlen _].
  rewrite Hlen. symmetry. apply Nat.div_mul. lia.
Qed.

(** Arrays and their element-wise sum. *)
Lemma add_arrays_assoc (a b c : list (option R)) :
  add_arrays (add_arrays a b) c = add_arrays a (add_arrays b c).
Proof.
  unfold add_arrays. revert b c.
  induction a as [| u a IH]; intros [| v b] [| w c]; simpl; try reflexivity.
  f_equal; [| apply IH].
  destruct u, v, w; simpl; try reflexivity. f_equal. ring.
Qed.

Lemma add_arrays_zeros (a : list (option R)) (n : nat) :
  length a = n → add_arrays a (replicate n (Some 0)) = a.
Proof.
  unfold add_arrays. revert n.
  induction a as [| u a IH]; intros [| n] Hlen; simpl in *; try lia; try reflexivity.
  f_equal; [| apply IH; lia].
  destruct u; simpl; [| reflexivity]. f_equal. ring.
Qed.

Lemma length_add_arrays (a b : list (option R)) :
  length (add_arrays a b) = (length a `min` length b)%nat.
Proof. unfold add_arrays. apply length_zip_with. Qed.

Lemma length_elliptical_gaussian (x y : list R) (amp xo yo sx sy theta : R) :
  length (elliptical_gaussian x y amp xo yo sx sy theta)
  = (length x `min` length y)%nat.
Proof. unfold elliptical_gaussian. apply length_zip_with. Qed.

Lemma length_component_model (x y : list R) (c : component) :
  length (component_model x y c) = (length x `min` length y)%nat.
Proof.
  destruct c as [[[[[amp xo] yo] major] minor] pa]. apply length_elliptical_gaussian.
Qed.

Lemma length_multi_gaussian_sum (cs : list component) (x y : list R) :
  length (multi_gaussian_sum cs x y) = (length x `min` length y)%nat.
Proof.
  induction cs as [| c cs IH]; simpl.
  - unfold zeros. apply length_replicate.
  - rewrite length_add_arrays, length_component_model, IH. lia.
Qed.

(** The loop of [rfunc] adds the Gaussians of the remaining groups to the
    array it has accumulated. *)
Lemma rfunc_mpfit_loop_sum (x y : list R) :
  ∀ (cs : list component) (acc : list (option R)),
    length acc = (length x `min` length y)%nat →
    rfunc_mpfit_loop (row_of <$> cs) x y (Some acc)
    = Returned (Some (add_arrays acc (multi_gaussian_sum cs x y))).
Proof.
  induction cs as [| c cs IH]; intros acc Hacc.
  - simpl. unfold zeros. rewrite add_arrays_zeros by assumption. reflexivity.
  - destruct c as [[[[[amp xo] yo] major] minor] pa]. simpl.
    rewrite IH.
    + rewrite add_arrays_assoc. reflexivity.
    + rewrite length_add_arrays, length_elliptical_gaussian. lia.
Qed.

Lemma rfunc_mpfit_loop_start (x y : list R) (c : component) (cs : list component) :
  rfunc_mpfit_loop (row_of <$> (c :: cs)) x y None
  = Returned (Some (multi_gaussian_sum (c :: cs) x y)).
Proof.
  destruct c as [[[[[amp xo] yo] major] minor] pa]. simpl.
  rewrite rfunc_mpfit_loop_sum by apply length_elliptical_gaussian.
  reflexivity.
Qed.

Lemma ntwodgaussian_mpfit_grouped (inpars : list R) (cs : list component) :
  groups_of_six inpars = Some cs →
  ntwodgaussian_mpfit inpars
  = Returned (λ x y, rfunc_mpfit_loop (row_of <$> cs) x y None).
Proof.
  intros Hcs. unfold ntwodgaussian_mpfit, reshape.
  pose proof (groups_of_six_length _ _ Hcs) as Hn.
  destruct (groups_of_six_chunks _ _ Hcs) as [Hlen Hch].
  rewrite <- Hn. rewrite decide_True by lia. simpl. rewrite Hch. reflexivity.
Qed.

(** Seven values cannot be reshaped into rows of six. *)
Example ntwodgaussian_mpfit_seven_values :
  ntwodgaussian_mpfit [1; 0; 0; 2; 1; 0; 5] = Raised ValueError.
Proof. reflexivity. Qed.

(** C9, as the code has it. A flat sequence whose length is not a multiple
    of 6 makes [ntwodgaussian_mpfit] fail with the [ValueError] of the
    reshape. A sequence of [N >= 1] groups of six gives a function that
    evaluates the element-wise sum of the [N] elliptical Gaussians, each
    with its position angle taken in degrees. For the empty sequence the
    function evaluates to Python's [None], not to an array. *)
Theorem ntwodgaussian_mpfit_sum (inpars : list R) :
  ((length inpars `mod` 6 ≠ 0)%nat →
   ntwodgaussian_mpfit inpars = Raised ValueError)
  ∧ ((length inpars `mod` 6 = 0)%nat →
     ∃ rfunc cs,
       ntwodgaussian_mpfit inpars = Returned rfunc
       ∧ groups_of_six inpars = Some cs
       ∧ length cs = (length inpars / 6)%nat
       ∧ ∀ x y,
           rfunc x y
           = Returned (if decide (inpars = []) then None
                       else Some (multi_gaussian_sum cs x y))).
Proof.
  split.
  - intros Hmod. unfold ntwodgaussian_mpfit, reshape.
    rewrite decide_False; [reflexivity |].
    intros Heq. apply Hmod. rewrite <- Heq. apply Nat.Div0.mod_mul.
  - intros Hmod.
    destruct (groups_of_six_total (length inpars / 6) inpars) as (cs & Hcs & Hn).
    { pose proof (Nat.div_mod_eq (length inpars) 6). lia. }
    exists (λ x y, rfunc_mpfit_loop (row_of <$> cs) x y None), cs.
    split; [apply ntwodgaussian_mpfit_grouped; assumption |].
    split; [assumption |]. split; [assumption |].
    intros x y. destruct cs as [| c cs].
    + destruct inpars; [reflexivity |].
      apply groups_of_six_chunks in Hcs as [Hlen _]. discriminate.
    + rewrite decide_False.
      * apply rfunc_mpfit_loop_start.
      * intros ->. discriminate.
Qed.

Lemma ntwodgaussian_mpfit_sum_witness :
  ∃ rfunc cs,
    ntwodgaussian_mpfit [1; 0; 0; 2; 1; 0] = Returned rfunc
    ∧ groups_of_six [1; 0; 0; 2; 1; 0] = Some cs
    ∧ length cs = (length [1; 0; 0; 2; 1; 0] / 6)%nat
    ∧ ∀ x y,
        rfunc x y
        = Returned (if decide ([1; 0; 0; 2; 1; 0] = []) then None
                    else Some (multi_gaussian_sum cs x y)).
Proof.
  apply (proj2 (ntwodgaussian_mpfit_sum [1; 0; 0; 2; 1; 0])). reflexivity.
Defined.

(** The empty sequence has a length that is a multiple of 6, and the
    function built from it evaluates to [None] where the sum of no
    Gaussians is the array of zeros. *)
Lemma ntwodgaussian_mpfit_empty :
  (length (@nil R) `mod` 6 = 0)%nat
  ∧ ∃ rfunc,
      ntwodgaussian_mpfit [] = Returned rfunc
      ∧ rfunc [0] [0] = Returned None
      ∧ multi_gaussian_sum [] [0] [0] = [Some 0]
      ∧ rfunc [0] [0] ≠ Returned (Some (multi_gaussian_sum [] [0] [0])).
Proof.
  split; [reflexivity |].
  eexists. split; [reflexivity |]. split; [reflexivity |].
  split; [reflexivity |]. discriminate.
Qed.

(** ** Finite sums *)

Lemma vsum_ext (n : nat) (f g : nat → R) :
  (∀ k, (k < n)%nat → f k = g k) → vsum n f = vsum n g.
Proof.
  induction n as [| n IH]; intros H; simpl; [reflexivity |].
  rewrite IH, (H n) by (intros; try apply H; lia). reflexivity.
Qed.

Lemma vsum_zero (n : nat) : vsum n (λ _, 0) = 0.
Proof. induction n as [| n IH]; simpl; [reflexivity | rewrite IH; ring]. Qed.

Lemma vsum_plus (n : nat) (f g : nat → R) :
  vsum n (λ k, f k + g k) = vsum n f + vsum n g.
Proof. induction n as [| n IH]; simpl; [ring | rewrite IH; ring]. Qed.

Lemma vsum_scale (n : nat) (c : R) (f : nat → R) :
  vsum n (λ k, c * f k) = c * vsum n f.
Proof. induction n as [| n IH]; simpl; [ring | rewrite IH; ring]. Qed.

Lemma vsum_swap (n m : nat) (f : nat → nat → R) :
  vsum n (λ i, vsum m (λ j, f i j)) = vsum m (λ j, vsum n (λ i, f i j)).
Proof.
  induction n as [| n IH]; simpl.
  - symmetry. apply vsum_zero.
  - rewrite IH, <- vsum_plus. reflexivity.
Qed.

Lemma vsum_pick (n i : nat) (f : nat → R) :
  (i < n)%nat → vsum n (λ k, if decide (k = i) then f k else 0) = f i.
Proof.
  induction n as [| n IH]; intros Hi; [lia |]. simpl.
  destruct (decide (n = i)) as [-> | Hne].
  - rewrite (vsum_ext i _ (λ _, 0)).
    + rewrite vsum_zero. ring.
    + intros k Hk. rewrite decide_False by lia. reflexivity.
  - rewrite IH by lia. ring.
Qed.

Lemma vsum_nonzero (n : nat) (f : nat → R) :
  vsum n f ≠ 0 → ∃ k, (k < n)%nat ∧ f k ≠ 0.
Proof.
  induction n as [| n IH]; simpl; intros H; [contradiction |].
  destruct (Req_dec_T (f n) 0) as [Hz | Hnz].
  - destruct IH as (k & Hk & Hfk); [rewrite Hz in H; lra |].
    exists k. split; [lia | assumption].
  - exists n. split; [lia | assumption].
Qed.

(** ** Products with diagonal and identity arrays *)

Lemma mmul_diag_r (n : nat) (A : mat) (d : vec) (i j : nat) :
  (j < n)%nat → mmul n A (diag d) i j = A i j * d j.
Proof.
  intros Hj. unfold mmul, diag.
  rewrite (vsum_ext n _ (λ k, if decide (k = j) then A i k * d k else 0)).
  - apply (vsum_pick n j (λ k, A i k * d k)). assumption.
  - intros k _. destruct (decide (k = j)); ring.
Qed.

Lemma identity_entry (i j : nat) :
  identity i j = if decide (i = j) then 1 else 0.
Proof. reflexivity. Qed.

(** ** What the contract of [eigh] gives, entry by entry *)

Section EighFacts.

Variables (n : nat) (C : mat) (L : vec) (Q : mat).
Hypothesis contract : eigh_contract n C (L, Q).

Lemma eigen_columns (k i : nat) :
  (k < n)%nat → (i < n)%nat → vsum n (λ m, C k m * Q m i) = Q k i * L i.
Proof.
  intros Hk Hi. destruct contract as (Hcq & _ & _). simpl in Hcq.
  specialize (Hcq k i Hk Hi). rewrite mmul_diag_r in Hcq by assumption.
  exact Hcq.
Qed.

Lemma columns_orthonormal (i j : nat) :
  (i < n)%nat → (j < n)%nat →
  vsum n (λ k, Q k i * Q k j) = if decide (i = j) then 1 else 0.
Proof.
  intros Hi Hj. destruct contract as (_ & Hqtq & _). exact (Hqtq i j Hi Hj).
Qed.

Lemma rows_orthonormal (i j : nat) :
  (i < n)%nat → (j < n)%nat →
  vsum n (λ k, Q i k * Q j k) = if decide (i = j) then 1 else 0.
Proof.
  intros Hi Hj. destruct contract as (_ & _ & Hqqt). exact (Hqqt i j Hi Hj).
Qed.

Lemma column_nonzero (i : nat) : (i < n)%nat → nonzero n (λ k, Q k i).
Proof.
  intros Hi. pose proof (columns_orthonormal i i Hi Hi) as H.
  rewrite decide_True in H by reflexivity.
  destruct (vsum_nonzero n (λ k, Q k i * Q k i)) as (k & Hk & Hne); [lra |].
  exists k. split; [assumption |]. intros Hz. apply Hne. rewrite Hz. ring.
Qed.

(** Every computed eigenvalue is an eigenvalue of [C]. *)
Lemma computed_is_eigenvalue (i : nat) : (i < n)%nat → is_eigenvalue n C (L i).
Proof.
  intros Hi. exists (λ k, Q k i). split; [apply column_nonzero; assumption |].
  intros k Hk. unfold mat_vec. rewrite eigen_columns by assumption. ring.
Qed.

(** Every eigenvalue of a symmetric [C] is a computed one. *)
Lemma eigenvalue_is_computed (lam : R) :
  symmetric n C → is_eigenvalue n C lam → ∃ i, (i < n)%nat ∧ L i = lam.
Proof.
  intros Hsym (v & (k0 & Hk0 & Hv0) & Hev).
  set (w := λ i, vsum n (λ k, Q k i * v k)).
  assert (Hw : ∀ i, (i < n)%nat → L i * w i = lam * w i).
  { intros i Hi. unfold w. rewrite <- !vsum_scale.
    transitivity (vsum n (λ k, Q k i * mat_vec n C v k)).
    - unfold mat_vec.
      rewrite (vsum_ext n (λ k, Q k i * vsum n (λ m, C k m * v m))
                 (λ k, vsum n (λ m, Q k i * C k m * v m))).
      2:{ intros k _. rewrite <- vsum_scale. apply vsum_ext. intros; ring. }
      rewrite vsum_swap. apply vsum_ext. intros m Hm.
      rewrite (vsum_ext n (λ k, Q k i * C k m * v m)
                 (λ k, v m * (C m k * Q k i))).
      2:{ intros k Hk. rewrite (Hsym k m Hk Hm). ring. }
      rewrite vsum_scale, eigen_columns by assumption. ring.
    - apply vsum_ext. intros k Hk. rewrite (Hev k Hk). ring. }
  assert (Hv : v k0 = vsum n (λ i, Q k0 i * w i)).
  { unfold w.
    rewrite (vsum_ext n (λ i, Q k0 i * vsum n (λ k, Q k i * v k))
               (λ i, vsum n (λ k, Q k0 i * Q k i * v k))).
    2:{ intros i _. rewrite <- vsum_scale. apply vsum_ext. intros; ring. }
    rewrite vsum_swap.
    rewrite (vsum_ext n _ (λ k, if decide (k = k0) then v k else 0)).
    - symmetry. apply (vsum_pick n k0 v). assumption.
    - intros k Hk.
      rewrite (vsum_ext n (λ i, Q k0 i * Q k i * v k)
                 (λ i, v k * (Q k0 i * Q k i))) by (intros; ring).
      rewrite vsum_scale, rows_orthonormal by assumption.
      destruct (decide (k0 = k)), (decide (k = k0)); try congruence; ring. }
  destruct (vsum_nonzero n (λ i, Q k0 i * w i)) as (i & Hi & Hne); [congruence |].
  exists i. split; [assumption |].
  assert (Hwi : w i ≠ 0) by (intros Hz; apply Hne; rewrite Hz; ring).
  specialize (Hw i Hi). apply Rmult_eq_reg_r with (r := w i); assumption.
Qed.

(** The computed eigenvalues of a positive-definite [C] are positive. *)
Lemma positive_definite_eigenvalues (i : nat) :
  positive_definite n C → (i < n)%nat → 0 < L i.
Proof.
  intros Hpd Hi. specialize (Hpd (λ k, Q k i) (column_nonzero i Hi)).
  rewrite (vsum_ext n _ (λ k, L i * (Q k i * Q k i))) in Hpd.
  - rewrite vsum_scale, columns_orthonormal, decide_True in Hpd
      by (assumption || reflexivity).
    lra.
  - intros k Hk. unfold mat_vec. rewrite eigen_columns by assumption. ring.
Qed.

End EighFacts.

(** ** The whitening matrix *)

Lemma all_positive_spec (n : nat) (L : vec) :
  all_positive n L = true ↔ ∀ i, (i < n)%nat → 0 < L i.
Proof.
  unfold all_positive. rewrite forallb_forall. split.
  - intros H i Hi. specialize (H i). rewrite bool_decide_eq_true in H.
    apply H, in_seq. lia.
  - intros H i Hi%in_seq. rewrite bool_decide_eq_true. apply H. lia.
Qed.

Lemma not_all_positive_spec (n : nat) (L : vec) :
  all_positive n L = false ↔ ∃ i, (i < n)%nat ∧ L i <= 0.
Proof.
  split.
  - induction n as [| n IH]; [discriminate |].
    unfold all_positive in *. rewrite seq_S, forallb_app. simpl.
    rewrite andb_true_r. intros H. apply andb_false_iff in H as [H | H].
    + destruct (IH H) as (i & Hi & HL). exists i. split; [lia | assumption].
    + apply bool_decide_eq_false in H. exists n. split; [lia | lra].
  - intros (i & Hi & HL). destruct (all_positive n L) eqn:Hall; [| reflexivity].
    rewrite all_positive_spec in Hall. specialize (Hall i Hi). lra.
Qed.

Lemma Bmatrix_unfold (eigh : nat → mat → vec * mat) (n : nat) (C : mat) :
  Bmatrix eigh n C
  = if all_positive n (eigh n C).1
    then Returned (mmul n (eigh n C).2 (diag (λ i, 1 / sqrt ((eigh n C).1 i))))
    else Raised (SystemExit 1).
Proof.
  unfold Bmatrix. destruct (eigh n C) as [L Q]. simpl.
  destruct (all_positive n L); reflexivity.
Qed.

(** The eigensolver for diagonal arrays honours the contract. *)
Lemma eigh_diagonal_contract (n : nat) (d : vec) :
  eigh_contract n (diag d) (eigh_diagonal n (diag d)).
Proof.
  unfold eigh_contract, eigh_diagonal. simpl. repeat split; intros i j Hi Hj.
  - unfold identity at 1. rewrite !mmul_diag_r by assumption.
    unfold diag, identity, diag.
    destruct (decide (i = j)) as [-> |]; [| ring].
    rewrite decide_True by reflexivity. ring.
  - unfold identity at 2. rewrite mmul_diag_r by assumption.
    unfold mtrans, identity, diag.
    destruct (decide (i = j)), (decide (j = i)); try congruence; ring.
  - unfold mmul, mtrans.
    rewrite (vsum_ext n _ (λ k, if decide (k = i) then identity j k else 0)).
    + rewrite (vsum_pick n i (λ k, identity j k)) by assumption.
      unfold identity, diag.
      destruct (decide (i = j)), (decide (j = i)); try congruence; ring.
    + intros k _. unfold identity, diag.
      destruct (decide (i = k)), (decide (k = i)); try congruence; ring.
Qed.

Lemma diag_symmetric (n : nat) (d : vec) : symmetric n (diag d).
Proof.
  intros i j _ _. unfold diag.
  destruct (decide (i = j)), (decide (j = i)); congruence.
Qed.

(** With an eigensolver that is exact (it honours its contract to the
    last digit), [Bmatrix] on a symmetric [C] exits with status 1 exactly
    when [C] has an eigenvalue that is zero or negative, which is exactly
    when one of the computed eigenvalues is; in that case it returns no
    matrix, and otherwise it returns one. *)
Theorem Bmatrix_exits_iff_nonpositive_eigenvalue
    (eigh : nat → mat → vec * mat) (n : nat) (C : mat) :
  symmetric n C →
  eigh_contract n C (eigh n C) →
  (Bmatrix eigh n C = Raised (SystemExit 1)
   ↔ ∃ lam, is_eigenvalue n C lam ∧ lam <= 0)
  ∧ (Bmatrix eigh n C = Raised (SystemExit 1)
     ↔ ∃ i, (i < n)%nat ∧ (eigh n C).1 i <= 0)
  ∧ ((∃ lam, is_eigenvalue n C lam ∧ lam <= 0) →
     ∀ B, Bmatrix eigh n C ≠ Returned B)
  ∧ ((¬ ∃ lam, is_eigenvalue n C lam ∧ lam <= 0) →
     ∃ B, Bmatrix eigh n C = Returned B).
Proof.
  intros Hsym Hcontract.
  assert (Hexit : Bmatrix eigh n C = Raised (SystemExit 1)
                  ↔ ∃ i, (i < n)%nat ∧ (eigh n C).1 i <= 0).
  { rewrite Bmatrix_unfold, <- not_all_positive_spec.
    destruct (all_positive n (eigh n C).1); split; congruence. }
  assert (Heig : (∃ i, (i < n)%nat ∧ (eigh n C).1 i <= 0)
                 ↔ ∃ lam, is_eigenvalue n C lam ∧ lam <= 0).
  { destruct (eigh n C) as [L Q] eqn:HLQ. simpl. split.
    - intros (i & Hi & HL). exists (L i). split; [| assumption].
      apply (computed_is_eigenvalue n C L Q); assumption.
    - intros (lam & Hlam & Hle).
      destruct (eigenvalue_is_computed n C L Q Hcontract lam Hsym Hlam)
        as (i & Hi & HL).
      exists i. split; [assumption | lra]. }
  split; [rewrite Hexit; exact Heig |]. split; [exact Hexit |]. split.
  - intros Hbad B HB. apply Heig, Hexit in Hbad. congruence.
  - intros Hgood. rewrite Bmatrix_unfold.
    destruct (all_positive n (eigh n C).1) eqn:Hall; [eexists; reflexivity |].
    exfalso. apply Hgood, Heig, not_all_positive_spec. assumption.
Qed.

Lemma Bmatrix_exits_iff_nonpositive_eigenvalue_witness :
  (Bmatrix eigh_diagonal 2 indefinite_2x2 = Raised (SystemExit 1)
   ↔ ∃ lam, is_eigenvalue 2 indefinite_2x2 lam ∧ lam <= 0)
  ∧ (Bmatrix eigh_diagonal 2 indefinite_2x2 = Raised (SystemExit 1)
     ↔ ∃ i, (i < 2)%nat ∧ (eigh_diagonal 2 indefinite_2x2).1 i <= 0)
  ∧ ((∃ lam, is_eigenvalue 2 indefinite_2x2 lam ∧ lam <= 0) →
     ∀ B, Bmatrix eigh_diagonal 2 indefinite_2x2 ≠ Returned B)
  ∧ ((¬ ∃ lam, is_eigenvalue 2 indefinite_2x2 lam ∧ lam <= 0) →
     ∃ B, Bmatrix eigh_diagonal 2 indefinite_2x2 = Returned B).
Proof.
  apply (Bmatrix_exits_iff_nonpositive_eigenvalue eigh_diagonal 2 indefinite_2x2).
  - apply diag_symmetric.
  - apply eigh_diagonal_contract.
Defined.

(** *** A singular correlation matrix *)



(** It is the matrix that [Cmatrix] returns for the samples 0, 0, 1 and
    [sigma = 1.5]. *)
Lemma coincident_3x3_from_Cmatrix :
  ∃ C, Cmatrix [0; 0; 1] 1.5 = Returned C
       ∧ ∀ i j, (i < 3)%nat → (j < 3)%nat →
           entry C i j = Some (Some (coincident_3x3 i j)).
Proof.
  eexists. split; [reflexivity |]. intros i j Hi Hj.
  assert (Hs : 1 * 1.5 ≠ 0) by lra.
  destruct i as [| [| [| i]]]; try lia;
    destruct j as [| [| [| j]]]; try lia;
    unfold entry, coincident_3x3, coincident_samples; simpl;
    rewrite gaussian_at_defined by exact Hs; reflexivity.
Qed.


Lemma vsum_nonneg (n : nat) (f : nat → R) :
  (∀ k, (k < n)%nat → 0 <= f k) → 0 <= vsum n f.
Proof.
  induction n as [| n IH]; intros H; simpl; [lra |].
  pose proof (H n ltac:(lia)) as Hn.
  assert (0 <= vsum n f) by (apply IH; intros; apply H; lia). lra.
Qed.

Lemma vsum_positive (n : nat) (f : nat → R) :
  (∀ k, (k < n)%nat → 0 <= f k) → (∃ k, (k < n)%nat ∧ 0 < f k) → 0 < vsum n f.
Proof.
  induction n as [| n IH]; intros Hge (k & Hk & Hpos); [lia |]. simpl.
  assert (Hrest : 0 <= vsum n f) by (apply vsum_nonneg; intros; apply Hge; lia).
  destruct (decide (k = n)) as [-> | Hne]; [lra |].
  assert (0 < vsum n f).
  { apply IH; [intros; apply Hge; lia |]. exists k. split; [lia | assumption]. }
  specialize (Hge n ltac:(lia)). lra.
Qed.

Lemma diag_positive_definite (n : nat) (d : vec) :
  (∀ i, (i < n)%nat → 0 < d i) → positive_definite n (diag d).
Proof.
  intros Hd v (k & Hk & Hvk).
  assert (Hterm : ∀ i, (i < n)%nat →
                       v i * mat_vec n (diag d) v i = d i * (v i * v i)).
  { intros i Hi. unfold mat_vec, diag.
    rewrite (vsum_ext n _ (λ m, if decide (m = i) then d i * v m else 0)).
    - rewrite (vsum_pick n i (λ m, d i * v m)) by assumption. ring.
    - intros m _. destruct (decide (i = m)), (decide (m = i)); try congruence; ring. }
  rewrite (vsum_ext n _ (λ i, d i * (v i * v i))) by exact Hterm.
  apply vsum_positive.
  - intros i Hi. specialize (Hd i Hi). nra.
  - exists k. split; [assumption |]. specialize (Hd k Hk).
    assert (0 < v k * v k) by (destruct (Rtotal_order (v k) 0) as [| [|]]; nra).
    nra.
Qed.

Section WhiteningFacts.

Variables (n : nat) (C : mat) (L : vec) (Q : mat).
Hypothesis contract : eigh_contract n C (L, Q).
Hypothesis positive : ∀ i, (i < n)%nat → 0 < L i.

Lemma whitening_square (m j : nat) :
  mmul n (whitening n L Q) (mtrans (whitening n L Q)) m j
  = vsum n (λ k, Q m k * Q j k / L k).
Proof.
  unfold mmul at 1. apply vsum_ext. intros k Hk.
  unfold mtrans, whitening. rewrite !mmul_diag_r by assumption.
  specialize (positive k Hk).
  assert (Hs : sqrt (L k) * sqrt (L k) = L k) by (apply sqrt_sqrt; lra).
  assert (Hs0 : sqrt (L k) ≠ 0) by (intros Hz; rewrite Hz in Hs; lra).
  rewrite <- Hs at 3. field. assumption.
Qed.

Lemma whitening_right_inverse (i j : nat) :
  (i < n)%nat → (j < n)%nat →
  mmul n C (mmul n (whitening n L Q) (mtrans (whitening n L Q))) i j
  = identity i j.
Proof.
  intros Hi Hj. unfold mmul at 1.
  rewrite (vsum_ext n _ (λ m, vsum n (λ k, C i m * Q m k * (Q j k / L k)))).
  2:{ intros m _. rewrite whitening_square, <- vsum_scale.
      apply vsum_ext. intros k Hk. unfold Rdiv. ring. }
  rewrite vsum_swap.
  rewrite (vsum_ext n _ (λ k, Q i k * Q j k)).
  - rewrite (rows_orthonormal n C L Q contract) by assumption. reflexivity.
  - intros k Hk.
    rewrite (vsum_ext n _ (λ m, Q j k / L k * (C i m * Q m k)))
      by (intros; ring).
    rewrite vsum_scale, (eigen_columns n C L Q contract) by assumption.
    specialize (positive k Hk). field. lra.
Qed.

Lemma whitening_left_inverse (i j : nat) :
  symmetric n C → (i < n)%nat → (j < n)%nat →
  mmul n (mmul n (whitening n L Q) (mtrans (whitening n L Q))) C i j
  = identity i j.
Proof.
  intros Hsym Hi Hj. unfold mmul at 1.
  rewrite (vsum_ext n _ (λ m, vsum n (λ k, Q i k / L k * (C j m * Q m k)))).
  2:{ intros m Hm. rewrite whitening_square.
      rewrite Rmult_comm, <- vsum_scale.
      apply vsum_ext. intros k Hk. rewrite (Hsym m j Hm Hj). unfold Rdiv. ring. }
  rewrite vsum_swap.
  rewrite (vsum_ext n _ (λ k, Q i k * Q j k)).
  - rewrite (rows_orthonormal n C L Q contract) by assumption. reflexivity.
  - intros k Hk.
    rewrite vsum_scale, (eigen_columns n C L Q contract) by assumption.
    specialize (positive k Hk). field. lra.
Qed.

End WhiteningFacts.

(** C5. For a symmetric positive-definite [C] (and an eigensolver that
    honours its contract), [Bmatrix] returns [B = Q . diag(1/sqrt L)] built
    from the eigendecomposition, and [B . B^T] is the inverse of [C]; over
    the reals the equality is exact. *)
Theorem Bmatrix_whitens
    (eigh : nat → mat → vec * mat) (n : nat) (C : mat) :
  symmetric n C →
  positive_definite n C →
  eigh_contract n C (eigh n C) →
  ∃ B,
    Bmatrix eigh n C = Returned B
    ∧ B = mmul n (eigh n C).2 (diag (λ i, 1 / sqrt ((eigh n C).1 i)))
    ∧ is_inverse n C (mmul n B (mtrans B)).
Proof.
  intros Hsym Hpd Hcontract. rewrite Bmatrix_unfold.
  destruct (eigh n C) as [L Q] eqn:HLQ. simpl.
  assert (Hpos : ∀ i, (i < n)%nat → 0 < L i).
  { intros i Hi. apply (positive_definite_eigenvalues n C L Q); assumption. }
  rewrite (proj2 (all_positive_spec n L) Hpos).
  eexists. split; [reflexivity |]. split; [reflexivity |]. split.
  - intros i j Hi Hj. apply (whitening_right_inverse n C L Q); assumption.
  - intros i j Hi Hj. apply (whitening_left_inverse n C L Q); assumption.
Qed.

Lemma Bmatrix_whitens_witness :
  ∃ B,
    Bmatrix eigh_diagonal 2 definite_2x2 = Returned B
    ∧ B = mmul 2 (eigh_diagonal 2 definite_2x2).2
            (diag (λ i, 1 / sqrt ((eigh_diagonal 2 definite_2x2).1 i)))
    ∧ is_inverse 2 definite_2x2 (mmul 2 B (mtrans B)).
Proof.
  apply (Bmatrix_whitens eigh_diagonal 2 definite_2x2).
  - apply diag_symmetric.
  - apply diag_positive_definite. intros i _. destruct (decide (i = 0%nat)); lra.
  - apply eigh_diagonal_contract.
Defined.

(** ** Masks *)

Lemma length_finite_positions_gen (row : list (option R)) :
  ∀ g : nat → nat,
    length (filter (λ p : nat * option R, is_Some p.2) (imap (λ j v, (g j, v)) row))
    = length (filter is_Some row).
Proof.
  induction row as [| v row IH]; intros g; [reflexivity |].
  rewrite imap_cons. rewrite !filter_cons. simpl.
  specialize (IH (g ∘ S)).
  destruct (decide (is_Some v)); simpl; [f_equal |]; exact IH.
Qed.

Lemma length_finite_positions (row : list (option R)) :
  length (finite_positions row) = length (filter is_Some row).
Proof.
  unfold finite_positions. rewrite length_fmap.
  apply (length_finite_positions_gen row (λ j, j)).
Qed.

Lemma length_finite_positions2_gen (d : list (list (option R))) :
  ∀ g : nat → nat,
    length (mjoin (imap (λ i row, (λ j, (g i, j)) <$> finite_positions row) d))
    = length (filter is_Some (mjoin d)).
Proof.
  induction d as [| row d IH]; intros g; [reflexivity |].
  rewrite imap_cons. simpl. rewrite filter_app, !length_app, length_fmap.
  rewrite length_finite_positions. f_equal.
  apply (IH (g ∘ S)).
Qed.

Lemma length_finite_positions2 (d : list (list (option R))) :
  length (finite_positions2 d) = length (filter is_Some (mjoin d)).
Proof. apply (length_finite_positions2_gen d (λ i, i)). Qed.

(** The raveled mask lists every finite sample once per dimension. *)
Lemma length_ravel_mask (data : observation) :
  length (ravel (where_finite data)) = (ndim data * count_finite data)%nat.
Proof.
  destruct data as [d | d]; unfold ravel; simpl.
  - rewrite length_app, length_finite_positions. simpl. lia.
  - rewrite !length_app, !length_fmap, length_finite_positions2. simpl. lia.
Qed.

(** ** The fit drivers *)

Section Drivers.

Variable mpfit :
(list R → outcome (Z * list (option R))) → list parinfo_entry →
outcome mpfit_object * list parinfo_entry.
Variable minimizer : Type.
Variable minimize :
(Params → outcome (list (option R))) →
option (Params → outcome (list (list (option R)))) →
Params → outcome minimizer * Params.

Lemma do_mpfit_unfold (data : observation) (parinfo : loc) (B : option mat)
  (w : world (list parinfo_entry)) (entries0 : list parinfo_entry) :
heap w !! parinfo = Some entries0 →
do_mpfit mpfit data parinfo B w
= (match (mpfit (erfunc data B) entries0).1 with
   | Raised e => Raised e
   | Returned mp =>
       Returned
         (set_dof mp
            (Z.of_nat (length (ravel (where_finite data)))
             - Z.of_nat (length (mpfit (erfunc data B) entries0).2)),
          parinfo)
   end,
   World (<[parinfo := (mpfit (erfunc data B) entries0).2]> (heap w))
     (S (solver_calls w))).
Proof.
intros Hl. unfold do_mpfit. rewrite Hl.
destruct (mpfit (erfunc data B) entries0) as [[mp | e] entries1]; reflexivity.
Qed.

Lemma do_lmfit_unfold (data : observation) (params : loc) (B : option mat)
  (dojac : bool) (w : world Params) (contents : Params) :
heap w !! params = Some contents →
let Dfun := if dojac then Some (jfn data) else None in
let copy := fresh (dom (heap w)) in
do_lmfit minimizer minimize data params B dojac w
= (match (minimize (residual data B) Dfun contents).1 with
   | Raised e => Raised e
   | Returned result => Returned (result, copy)
   end,
   World (<[copy := (minimize (residual data B) Dfun contents).2]>
            (<[copy := contents]> (heap w)))
     (S (solver_calls w))).
Proof.
intros Hl Dfun copy. unfold do_lmfit. rewrite Hl. fold Dfun. fold copy.
destruct (minimize (residual data B) Dfun contents) as [[result | e] contents1];
  reflexivity.
Qed.

Lemma fresh_unallocated {O : Type} (h : gmap loc O) : h !! fresh (dom h) = None.
Proof. apply not_elem_of_dom, is_fresh. Qed.

End Drivers.

(** C2, as the code has it. Neither driver compares the number of finite
    samples with the number of free parameters: whatever the two numbers
    are, the driver calls the external solver exactly once, on the residual
    function and the parameters it was given, and answers what the solver
    answers (its result, or the exception it raised). *)
Theorem fit_drivers_always_call_solver
    (mpfit : (list R → outcome (Z * list (option R))) → list parinfo_entry →
             outcome mpfit_object * list parinfo_entry)
    (minimizer : Type)
    (minimize : (Params → outcome (list (option R))) →
                option (Params → outcome (list (list (option R)))) →
                Params → outcome minimizer * Params)
    (data : observation) (parinfo params : loc) (B : option mat) (dojac : bool)
    (w1 : world (list parinfo_entry)) (w2 : world Params)
    (entries0 : list parinfo_entry) (contents : Params) :
  heap w1 !! parinfo = Some entries0 →
  heap w2 !! params = Some contents →
  let solved1 := mpfit (erfunc data B) entries0 in
  let solved2 :=
    minimize (residual data B) (if dojac then Some (jfn data) else None) contents in
  solver_calls (do_mpfit mpfit data parinfo B w1).2 = S (solver_calls w1)
  ∧ (∀ e, solved1.1 = Raised e →
          (do_mpfit mpfit data parinfo B w1).1 = Raised e)
  ∧ (∀ mp, solved1.1 = Returned mp →
           ∃ d, (do_mpfit mpfit data parinfo B w1).1
                = Returned (set_dof mp d, parinfo))
  ∧ solver_calls (do_lmfit minimizer minimize data params B dojac w2).2
    = S (solver_calls w2)
  ∧ (∀ e, solved2.1 = Raised e →
          (do_lmfit minimizer minimize data params B dojac w2).1 = Raised e)
  ∧ (∀ result, solved2.1 = Returned result →
               ∃ copy, (do_lmfit minimizer minimize data params B dojac w2).1
                       = Returned (result, copy)).
Proof.
  intros H1 H2 solved1 solved2.
  rewrite (do_mpfit_unfold mpfit data parinfo B w1 entries0 H1).
  rewrite (do_lmfit_unfold minimizer minimize data params B dojac w2 contents H2).
  fold solved1. fold solved2. simpl.
  repeat split.
  - intros e ->. reflexivity.
  - intros mp ->. eexists. reflexivity.
  - intros e ->. reflexivity.
  - intros result ->. eexists. reflexivity.
Qed.

Lemma fit_drivers_always_call_solver_witness :
  solver_calls (do_mpfit mpfit_keep image_1x1 0%nat None mpfit_caller).2 = 1%nat
  ∧ solver_calls
      (do_lmfit unit minimize_in_place image_1x1 0%nat None false lmfit_caller).2
    = 1%nat.
Proof.
  destruct (fit_drivers_always_call_solver mpfit_keep unit minimize_in_place
              image_1x1 0%nat 0%nat None false mpfit_caller lmfit_caller
              one_component (gaussian2d_params 1 7.5 6 2.54 1.27 0)
              eq_refl eq_refl) as (H1 & _ & _ & H2 & _).
  split; [exact H1 | exact H2].
Defined.

(** With one finite sample and six free parameters both drivers still call
    the solver and hand back its fit; nothing is reported as insufficient
    data. *)
Lemma fit_drivers_fit_one_sample :
  (count_finite image_1x1 ≤ length (free_entries one_component))%nat
  ∧ (count_finite image_1x1
     ≤ free_params (gaussian2d_params 1 7.5 6 2.54 1.27 0))%nat
  ∧ (∃ mp w,
       do_mpfit mpfit_keep image_1x1 0%nat None mpfit_caller
       = (Returned (mp, 0%nat), w)
       ∧ solver_calls mpfit_caller = 0%nat ∧ solver_calls w = 1%nat)
  ∧ (∃ result copy w,
       do_lmfit unit minimize_in_place image_1x1 0%nat None false lmfit_caller
       = (Returned (result, copy), w)
       ∧ solver_calls lmfit_caller = 0%nat ∧ solver_calls w = 1%nat).
Proof.
  split; [| split; [| split]].
  - simpl. lia.
  - unfold free_params. simpl count_finite.
    assert (H : size (filter (λ kv : string * Param, vary kv.2 = true)
                        (entries (gaussian2d_params 1 7.5 6 2.54 1.27 0))) = 6%nat).
    { unfold gaussian2d_params. simpl entries.
      repeat (rewrite map_filter_insert_True by reflexivity;
              rewrite map_size_insert_None
                by (apply map_lookup_filter_None_2; left; reflexivity)).
      rewrite map_filter_empty. reflexivity. }
    rewrite H. lia.
  - do 2 eexists. split; [reflexivity |]. split; reflexivity.
  - do 3 eexists. split; [reflexivity |]. split; reflexivity.
Qed.

(** C3, as the code computes it. When the solver returns, the [dof] that
    [do_mpfit] records is the length of the raveled mask minus the length
    of [parinfo]: the number of finite samples counted once per dimension
    of the data (twice for an image), minus the number of all parameters,
    fixed ones included. It is not the number of finite samples minus the
    number of free parameters. *)
Theorem do_mpfit_dof
    (mpfit : (list R → outcome (Z * list (option R))) → list parinfo_entry →
             outcome mpfit_object * list parinfo_entry)
    (data : observation) (parinfo : loc) (B : option mat)
    (w : world (list parinfo_entry))
    (entries0 entries1 : list parinfo_entry) (mp : mpfit_object) :
  heap w !! parinfo = Some entries0 →
  mpfit (erfunc data B) entries0 = (Returned mp, entries1) →
  ∃ mp',
    (do_mpfit mpfit data parinfo B w).1 = Returned (mp', parinfo)
    ∧ dof mp'
      = (Z.of_nat (ndim data * count_finite data) - Z.of_nat (length entries1))%Z.
Proof.
  intros Hl Hsolved. rewrite (do_mpfit_unfold mpfit data parinfo B w entries0 Hl).
  rewrite Hsolved. simpl. eexists. split; [reflexivity |].
  simpl. rewrite length_ravel_mask. reflexivity.
Qed.

Lemma do_mpfit_dof_witness :
  ∃ mp',
    (do_mpfit mpfit_keep image_2x4 0%nat None mpfit_caller).1
    = Returned (mp', 0%nat)
    ∧ dof mp' = 10%Z
    ∧ count_finite image_2x4 = 8%nat
    ∧ length (free_entries one_component) = 6%nat.
Proof.
  destruct (do_mpfit_dof mpfit_keep image_2x4 0%nat None mpfit_caller
              one_component one_component
              (mkMpfit (pvalue <$> one_component) [] 1 0) eq_refl eq_refl)
    as (mp' & Hrun & Hdof).
  exists mp'. split; [exact Hrun |]. split; [exact Hdof |].
  split; reflexivity.
Defined.



(** ** The position angle of [ntwodgaussian_mpfit] is in degrees *)

Lemma PI_above_3 : 3 < PI.
Proof. pose proof PI2_3_2. lra. Qed.

Lemma cos_sqr_differ (a b : R) :
  0 <= a <= PI → 0 <= b <= PI → a ≠ b → a ≠ PI - b →
  cos a * cos a ≠ cos b * cos b.
Proof.
  intros Ha Hb Hab Hab' Heq.
  assert (Hcases : cos a = cos b ∨ cos a = - cos b) by nra.
  destruct Hcases as [Hc | Hc].
  - apply Hab. apply cos_inj; assumption.
  - apply Hab'. apply cos_inj; [assumption | lra |].
    rewrite Hc. unfold Rminus. rewrite cos_plus, cos_PI, sin_PI, cos_neg. ring.
Qed.

(** The function built from one group with [pa = 2] evaluates the Gaussian
    rotated by 2 degrees, which at the sample [(1, 0)] is not the Gaussian
    rotated by 2 radians. *)
Lemma position_angle_in_degrees :
  ∃ rfunc,
    ntwodgaussian_mpfit [1; 0; 0; 1; 2; 2] = Returned rfunc
    ∧ rfunc [1] [0]
      = Returned (Some (elliptical_gaussian [1] [0] 1 0 0 1 2 (radians 2)))
    ∧ elliptical_gaussian [1] [0] 1 0 0 1 2 (radians 2)
      ≠ elliptical_gaussian [1] [0] 1 0 0 1 2 2.
Proof.
  eexists. split; [reflexivity |]. split; [reflexivity |].
  unfold elliptical_gaussian. simpl.
  rewrite !elliptical_gaussian_at_defined by lra.
  intros Heq. injection Heq as Heq.
  apply Rmult_eq_reg_l in Heq; [| lra]. apply exp_inv in Heq.
  pose proof PI_above_3 as Hlo. pose proof PI_4 as Hhi.
  unfold radians in Heq.
  apply (cos_sqr_differ (2 * PI / 180) 2); try lra.
  pose proof (sin2_cos2 (2 * PI / 180)) as Ha.
  pose proof (sin2_cos2 2) as Hb. unfold Rsqr in Ha, Hb.
  revert Heq Ha Hb.
  generalize (cos (2 * PI / 180)) (sin (2 * PI / 180)) (cos 2) (sin 2).
  intros ca sa cb sb Heq Ha Hb.
  assert (Hq : ca * ca + sa * sa / 4 = cb * cb + sb * sb / 4).
  { apply Rmult_eq_reg_r with (r := -1 / 2); [| lra].
    etransitivity; [| etransitivity; [exact Heq |]]; field. }
  lra.
Qed.

(** * Further properties of the code *)

(** ** The model evaluator *)

Lemma exp_nonpositive (e : R) : e <= 0 → 0 < exp e <= 1.
Proof.
  intros He. split; [apply exp_pos |].
  destruct (Req_dec_T e 0) as [-> | Hne]; [rewrite exp_0; lra |].
  rewrite <- exp_0. left. apply exp_increasing. lra.
Qed.

Lemma square_positive (s : R) : s ≠ 0 → 0 < s ^ 2.
Proof. intros Hs. simpl. destruct (Rtotal_order s 0) as [| [|]]; nra. Qed.

Lemma square_ratio_nonneg (a s : R) : s ≠ 0 → 0 <= a ^ 2 / s ^ 2.
Proof.
  intros Hs. apply Rmult_le_pos; [apply pow2_ge_0 |].
  left. apply Rinv_0_lt_compat. apply square_positive; assumption.
Qed.





Lemma moderate_nonzero (v : R) : moderate v → v ≠ 0.
Proof. intros [Hlo _] ->. rewrite Rabs_R0 in Hlo. lra. Qed.

Lemma moderate_of_range (v : R) : 1e-100 <= v <= 1e100 → moderate v.
Proof. intros Hv. unfold moderate. rewrite Rabs_pos_eq; lra. Qed.

Lemma bounded_of_range (v : R) : 0 <= v <= 1e100 → bounded v.
Proof. intros Hv. unfold bounded. rewrite Rabs_pos_eq; lra. Qed.

(** With equal widths (not zero, and of moderate size) the elliptical
    Gaussian is circular: at bounded coordinates its values do not depend
    on the rotation angle. *)
Theorem elliptical_gaussian_circular
    (x y : list R) (amp xo yo s theta1 theta2 : R) :
  moderate s →
  Forall bounded x → Forall bounded y → bounded xo → bounded yo →
  elliptical_gaussian x y amp xo yo s s theta1
  = elliptical_gaussian x y amp xo yo s s theta2.
Proof.
  intros Hs%moderate_nonzero _ _ _ _. unfold elliptical_gaussian. revert y.
  induction x as [| xi x IH]; intros [| yi y]; simpl; try reflexivity.
  f_equal; [| apply IH].
  rewrite !elliptical_gaussian_at_defined by assumption.
  do 3 f_equal.
  pose proof (sin2_cos2 theta1) as H1. pose proof (sin2_cos2 theta2) as H2.
  unfold Rsqr in H1, H2.
  assert (Hcirc : ∀ t, sin t * sin t + cos t * cos t = 1 →
            ((xi - xo) * cos t + (yi - yo) * sin t) ^ 2 / s ^ 2
            + ((xi - xo) * sin t - (yi - yo) * cos t) ^ 2 / s ^ 2
            = ((xi - xo) ^ 2 + (yi - yo) ^ 2) / s ^ 2).
  { intros t Ht. unfold Rdiv. rewrite <- Rmult_plus_distr_r. f_equal.
    replace (((xi - xo) * cos t + (yi - yo) * sin t) ^ 2
             + ((xi - xo) * sin t - (yi - yo) * cos t) ^ 2)
      with (((xi - xo) ^ 2 + (yi - yo) ^ 2) * (sin t * sin t + cos t * cos t))
      by ring.
    rewrite Ht. ring. }
  rewrite (Hcirc theta1 H1), (Hcirc theta2 H2). reflexivity.
Qed.

Lemma elliptical_gaussian_circular_witness :
  elliptical_gaussian [0; 7] [1; 6] 3 7 6 2 2 0
  = elliptical_gaussian [0; 7] [1; 6] 3 7 6 2 2 1.
Proof.
  apply elliptical_gaussian_circular;
    [apply moderate_of_range; lra | | | apply bounded_of_range; lra
     | apply bounded_of_range; lra];
    repeat apply Forall_cons_2; try apply Forall_nil_2;
    apply bounded_of_range; lra.
Defined.

(** ** Half turns and the canonical angle *)




(** What a finished run of [theta_limit] returns. *)
Lemma theta_limit_result (m : nat) (theta r : R) :
  theta_limit m theta = Some r →
  (∃ z : Z, r = theta + IZR z * PI) ∧ - PI / 2 < r ∧ r <= PI / 2.
Proof.
  intros Hrun.
  destruct (theta_limit_returns theta) as (n & r0 & z & Hrun0 & Hr0 & Hlo & Hhi).
  pose proof (theta_limit_more_fuel m (Nat.max m n) theta r Hrun) as Ha.
  pose proof (theta_limit_more_fuel n (Nat.max m n) theta r0 Hrun0) as Hb.
  rewrite Ha in Hb by lia. specialize (Hb ltac:(lia)). injection Hb as ->.
  split; [exists z; assumption | split; assumption].
Qed.


Lemma theta_limit_of_three : theta_limit 1 3 = Some (3 - PI).
Proof.
  pose proof PI_above_3 as Hlo. pose proof PI_4 as Hhi.
  unfold theta_limit. simpl.
  destruct (Rle_dec 3 (-1 * PI / 2)); [lra |]. simpl.
  destruct (Rgt_dec 3 (PI / 2)); [| lra].
  destruct (Rgt_dec (3 - PI) (PI / 2)); [lra | reflexivity].
Qed.


(** [theta_limit] leaves an angle of the canonical interval as it is, with
    any amount of fuel, so applying it twice gives what applying it once
    gives. *)
Theorem theta_limit_idempotent (m n : nat) (theta r : R) :
  theta_limit m theta = Some r → theta_limit n r = Some r.
Proof.
  intros Hrun. destruct (theta_limit_result m theta r Hrun) as (_ & Hlo & Hhi).
  unfold theta_limit.
  assert (Hup : theta_raise n r = Some r).
  { destruct n; simpl; destruct (Rle_dec r (-1 * PI / 2)); try lra; reflexivity. }
  rewrite Hup. simpl.
  destruct n; simpl; destruct (Rgt_dec r (PI / 2)); try lra; reflexivity.
Qed.

Lemma theta_limit_idempotent_witness : theta_limit 0 (3 - PI) = Some (3 - PI).
Proof. apply (theta_limit_idempotent 1 0 3). apply theta_limit_of_three. Defined.

(** ** The one-dimensional Gaussian and its Jacobian *)

Lemma gaussian_value_defined (x amp cen sigma : R) :
  sigma ≠ 0 →
  gaussian_value x amp cen sigma
  = amp * exp (- (1 / 2) * ((x - cen) / sigma) ^ 2).
Proof.
  intros Hs. unfold gaussian_value. rewrite gaussian_at_defined by assumption.
  reflexivity.
Qed.







(** ** The two-dimensional Jacobian *)






(** ** Missing names *)

Lemma par_value_present (pars : Params) (name : string) :
  entries pars !! name ≠ None → ∃ v, par_value pars name = Returned v.
Proof.
  intros H. unfold par_value. destruct (entries pars !! name) as [p |];
    [eexists; reflexivity | contradiction].
Qed.

Lemma par_value_absent (pars : Params) (name : string) :
  entries pars !! name = None → par_value pars name = Raised (KeyError name).
Proof. intros H. unfold par_value. rewrite H. reflexivity. Qed.

Lemma first_missing_cons (name : string) (names : list string) (pars : Params) :
  first_missing (name :: names) pars
  = if decide (entries pars !! name = None) then Some name
    else first_missing names pars.
Proof.
  unfold first_missing. simpl. case_decide; [reflexivity |].
  destruct (list_find _ names) as [[i k] |]; reflexivity.
Qed.

Ltac read_name :=
  match goal with
  | |- context [entries ?p !! ?k] =>
      destruct (entries p !! k) eqn:?;
      [rewrite decide_False by discriminate
      | rewrite decide_True by reflexivity; reflexivity]
  end.

(** A Jacobian is returned exactly when [pars] holds every name the
    function reads ([amp], [cen], [sigma] for [jacobian]; [amp], [xo],
    [yo], [sx], [sy], [theta] for [jacobian2d]); otherwise the call raises
    the [KeyError] of the first name that is missing. This holds for
    coordinate arrays of one length and [errs], when given, of that length,
    in either mode. *)
Theorem jacobians_missing_name
    (pars : Params) (x y : list R) (emp : bool) (errs : option (list R)) :
  length x = length y →
  (∀ es, errs = Some es → length es = length x) →
  match first_missing ["amp"; "cen"; "sigma"] pars with
  | Some name => jacobian pars x = Raised (KeyError name)
  | None => ∃ J, jacobian pars x = Returned J
  end
  ∧ match first_missing ["amp"; "xo"; "yo"; "sx"; "sy"; "theta"] pars with
    | Some name => jacobian2d pars (x, y) emp errs = Raised (KeyError name)
    | None => ∃ J, jacobian2d pars (x, y) emp errs = Returned J
    end.
Proof.
  intros _ _.
  rewrite !first_missing_cons. unfold jacobian, jacobian2d, par_value. split.
  - do 3 read_name. eexists; reflexivity.
  - do 6 read_name. destruct emp; eexists; reflexivity.
Qed.

Lemma jacobians_missing_name_witness :
  match first_missing ["amp"; "cen"; "sigma"] (gaussian1d_params 2 1 3) with
  | Some name => jacobian (gaussian1d_params 2 1 3) [0; 1] = Raised (KeyError name)
  | None => ∃ J, jacobian (gaussian1d_params 2 1 3) [0; 1] = Returned J
  end
  ∧ match first_missing ["amp"; "xo"; "yo"; "sx"; "sy"; "theta"]
            (gaussian1d_params 2 1 3) with
    | Some name =>
        jacobian2d (gaussian1d_params 2 1 3) ([0; 1], [2; 3]) true
          (Some [0.2; 0.2]) = Raised (KeyError name)
    | None =>
        ∃ J, jacobian2d (gaussian1d_params 2 1 3) ([0; 1], [2; 3]) true
               (Some [0.2; 0.2]) = Returned J
    end.
Proof.
  apply (jacobians_missing_name (gaussian1d_params 2 1 3) [0; 1] [2; 3] true
           (Some [0.2; 0.2]));
    [reflexivity | intros es [= <-]; reflexivity].
Defined.

(** ** Multi-component models *)

Lemma add_scaled (n : nat) (g : list (option R)) :
  add_arrays (scaled n g) g = scaled (S n) g.
Proof.
  unfold add_arrays, scaled. induction g as [| v g IH]; [reflexivity |].
  simpl. f_equal; [| apply IH].
  destruct v as [r |]; simpl; [| reflexivity].
  f_equal. destruct n as [| n]; simpl; [ring |]. destruct n; ring.
Qed.

Lemma scaled_one (g : list (option R)) : scaled 1 g = g.
Proof.
  unfold scaled. induction g as [| v g IH]; [reflexivity |].
  simpl. f_equal; [| apply IH].
  destruct v as [r |]; simpl; [| reflexivity]. f_equal. ring.
Qed.

Lemma rfunc_lmfit_loop_repeats (pars : Params) (x y : list R)
    (amp xo yo sx sy theta : R) :
  reads2d pars amp xo yo sx sy theta →
  ∀ (k j : nat),
    rfunc_lmfit_loop k pars x y
      (Some (scaled (S j) (elliptical_gaussian x y amp xo yo sx sy theta)))
    = Returned
        (Some (scaled (S j + k) (elliptical_gaussian x y amp xo yo sx sy theta))).
Proof.
  intros (Ha & Hxo & Hyo & Hsx & Hsy & Ht).
  induction k as [| k IH]; intros j.
  - simpl. rewrite Nat.add_0_r. reflexivity.
  - simpl rfunc_lmfit_loop. rewrite Ha, Hxo, Hyo, Hsx, Hsy, Ht. simpl.
    rewrite add_scaled, IH. do 3 f_equal. lia.
Qed.

Lemma ntwodgaussian_lmfit_value
    (pars : Params) (n : nat) (x y : list R) (amp xo yo sx sy theta : R) :
  reads2d pars amp xo yo sx sy theta →
  components pars = Some n →
  ntwodgaussian_lmfit pars x y
  = Returned
      (match n with
       | O => None
       | S _ => Some (scaled n (elliptical_gaussian x y amp xo yo sx sy theta))
       end).
Proof.
  intros Hreads Hn. unfold ntwodgaussian_lmfit. rewrite Hn.
  destruct n as [| n]; [reflexivity |].
  pose proof Hreads as (Ha & Hxo & Hyo & Hsx & Hsy & Ht).
  simpl rfunc_lmfit_loop. rewrite Ha, Hxo, Hyo, Hsx, Hsy, Ht. simpl.
  rewrite <- (scaled_one (elliptical_gaussian x y amp xo yo sx sy theta)) at 1.
  rewrite (rfunc_lmfit_loop_repeats pars x y amp xo yo sx sy theta Hreads n 0).
  reflexivity.
Qed.

(** [ntwodgaussian_lmfit] reads the same six names in every round of its
    loop, so with [components = n] it evaluates [n] times the one Gaussian
    of the parameter set, and Python's [None] for [n = 0]. *)
Theorem ntwodgaussian_lmfit_repeats
    (pars : Params) (n : nat) (x y : list R) (amp xo yo sx sy theta : R) :
  reads2d pars amp xo yo sx sy theta →
  components pars = Some n →
  ntwodgaussian_lmfit pars x y
  = Returned
      (match n with
       | O => None
       | S _ => Some (scaled n (elliptical_gaussian x y amp xo yo sx sy theta))
       end).
Proof. apply ntwodgaussian_lmfit_value. Qed.

Lemma ntwodgaussian_lmfit_repeats_witness :
  ntwodgaussian_lmfit (gaussian2d_params 1 7.5 6 2.54 1.27 0) [0; 1] [2; 3]
  = Returned
      (Some (scaled 1 (elliptical_gaussian [0; 1] [2; 3] 1 7.5 6 2.54 1.27 0))).
Proof.
  apply (ntwodgaussian_lmfit_repeats _ 1 _ _ 1 7.5 6 2.54 1.27 0);
    [apply reads2d_gaussian2d_params | reflexivity].
Defined.

Lemma add_zeros_left (a : list (option R)) (n : nat) :
  length a = n → add_arrays (replicate n (Some 0)) a = a.
Proof.
  unfold add_arrays. revert n.
  induction a as [| u a IH]; intros [| n] Hlen; simpl in *; try lia; try reflexivity.
  f_equal; [| apply IH; lia].
  destruct u; simpl; [| reflexivity]. f_equal. ring.
Qed.

Lemma multi_gaussian_sum_app (cs1 cs2 : list component) (x y : list R) :
  multi_gaussian_sum (cs1 ++ cs2) x y
  = add_arrays (multi_gaussian_sum cs1 x y) (multi_gaussian_sum cs2 x y).
Proof.
  induction cs1 as [| c cs1 IH]; simpl.
  - unfold zeros. symmetry. apply add_zeros_left, length_multi_gaussian_sum.
  - rewrite IH, add_arrays_assoc. reflexivity.
Qed.

Lemma groups_of_six_app (l1 l2 : list R) (cs1 cs2 : list component) :
  groups_of_six l1 = Some cs1 → groups_of_six l2 = Some cs2 →
  groups_of_six (l1 ++ l2) = Some (cs1 ++ cs2).
Proof.
  revert l1. induction cs1 as [| c cs1 IH]; intros l1 H1 H2.
  - apply groups_of_six_chunks in H1 as [Hlen _].
    destruct l1; [assumption | discriminate].
  - destruct l1 as [| a [| b [| c' [| d [| e [| f rest]]]]]]; simpl in H1;
      try discriminate.
    destruct (groups_of_six rest) as [cs' |] eqn:Hrest; [| discriminate].
    simpl in H1. injection H1 as <- <-.
    simpl. rewrite (IH rest Hrest H2). reflexivity.
Qed.

(** What a function returned by [ntwodgaussian_mpfit] is. *)
Lemma ntwodgaussian_mpfit_returned (inpars : list R)
    (f : list R → list R → outcome (option (list (option R)))) :
  ntwodgaussian_mpfit inpars = Returned f →
  ∃ cs, groups_of_six inpars = Some cs
        ∧ f = λ x y, rfunc_mpfit_loop (row_of <$> cs) x y None.
Proof.
  intros Hf.
  assert (Hlen : length inpars = (length inpars / 6 * 6)%nat).
  { unfold ntwodgaussian_mpfit, reshape in Hf.
    destruct (decide (length inpars / 6 * 6 = length inpars)%nat);
      [lia | discriminate]. }
  destruct (groups_of_six_total _ _ Hlen) as (cs & Hcs & _).
  exists cs. split; [assumption |].
  rewrite (ntwodgaussian_mpfit_grouped _ _ Hcs) in Hf. congruence.
Qed.

Lemma rfunc_mpfit_loop_value (cs : list component) (x y : list R)
    (g : list (option R)) :
  rfunc_mpfit_loop (row_of <$> cs) x y None = Returned (Some g) →
  cs ≠ [] ∧ g = multi_gaussian_sum cs x y.
Proof.
  destruct cs as [| c cs]; [discriminate |].
  rewrite rfunc_mpfit_loop_start. intros H. split; congruence.
Qed.

(** Components add up: the function built from two parameter sequences
    put end to end evaluates the element-wise sum of what the functions
    built from each of them evaluate. *)
Theorem ntwodgaussian_mpfit_additive
    (p1 p2 : list R)
    (f1 f2 : list R → list R → outcome (option (list (option R))))
    (x y : list R) (g1 g2 : list (option R)) :
  ntwodgaussian_mpfit p1 = Returned f1 →
  ntwodgaussian_mpfit p2 = Returned f2 →
  f1 x y = Returned (Some g1) →
  f2 x y = Returned (Some g2) →
  ∃ f, ntwodgaussian_mpfit (p1 ++ p2) = Returned f
       ∧ f x y = Returned (Some (add_arrays g1 g2)).
Proof.
  intros H1 H2 Hg1 Hg2.
  destruct (ntwodgaussian_mpfit_returned p1 f1 H1) as (cs1 & Hcs1 & ->).
  destruct (ntwodgaussian_mpfit_returned p2 f2 H2) as (cs2 & Hcs2 & ->).
  apply rfunc_mpfit_loop_value in Hg1 as [Hne1 ->].
  apply rfunc_mpfit_loop_value in Hg2 as [Hne2 ->].
  pose proof (groups_of_six_app _ _ _ _ Hcs1 Hcs2) as Hcs.
  eexists. split; [apply ntwodgaussian_mpfit_grouped; exact Hcs |].
  destruct cs1 as [| c cs1]; [contradiction |].
  change ((c :: cs1) ++ cs2) with (c :: (cs1 ++ cs2)).
  rewrite rfunc_mpfit_loop_start.
  change (c :: (cs1 ++ cs2)) with ((c :: cs1) ++ cs2).
  rewrite multi_gaussian_sum_app. reflexivity.
Qed.

Lemma ntwodgaussian_mpfit_additive_witness :
  ∃ f, ntwodgaussian_mpfit ([1; 0; 0; 2; 1; 0] ++ [3; 1; 1; 1; 1; 45])
       = Returned f
       ∧ f [0; 1] [2; 3]
         = Returned
             (Some (add_arrays
                      (elliptical_gaussian [0; 1] [2; 3] 1 0 0 2 1 (radians 0))
                      (elliptical_gaussian [0; 1] [2; 3] 3 1 1 1 1 (radians 45)))).
Proof.
  apply (ntwodgaussian_mpfit_additive [1; 0; 0; 2; 1; 0] [3; 1; 1; 1; 1; 45]
           (λ x y, rfunc_mpfit_loop [[1; 0; 0; 2; 1; 0]] x y None)
           (λ x y, rfunc_mpfit_loop [[3; 1; 1; 1; 1; 45]] x y None));
    reflexivity.
Defined.

(** ** Masks and the samples they select *)

Lemma finite_positions_shift (row : list (option R)) :
  ∀ g : nat → nat,
    (λ p : nat * option R, p.1)
      <$> filter (λ p : nat * option R, is_Some p.2) (imap (λ j v, (g j, v)) row)
    = g <$> finite_positions row.
Proof.
  unfold finite_positions.
  induction row as [| v row IH]; intros g; [reflexivity |].
  rewrite !imap_cons, !filter_cons. simpl.
  pose proof (IH (g ∘ S)) as Hg. pose proof (IH S) as HS.
  unfold compose in Hg.
  assert (Htail :
    (λ p : nat * option R, p.1)
      <$> filter (λ p : nat * option R, is_Some p.2)
            (imap (λ j v, (g (S j), v)) row)
    = g <$> ((λ p : nat * option R, p.1)
               <$> filter (λ p : nat * option R, is_Some p.2)
                     (imap (λ j v, (S j, v)) row))).
  { rewrite Hg, HS. rewrite <- (list_fmap_compose S g). reflexivity. }
  destruct (decide (is_Some v)); simpl; [f_equal |]; exact Htail.
Qed.

Lemma finite_positions_cons (v : option R) (row : list (option R)) :
  finite_positions (v :: row)
  = (if decide (is_Some v) then [0%nat] else []) ++ (S <$> finite_positions row).
Proof.
  unfold finite_positions at 1. rewrite imap_cons, filter_cons. simpl.
  pose proof (finite_positions_shift row S) as HS.
  destruct (decide (is_Some v)); simpl; [f_equal |]; exact HS.
Qed.

Lemma finite_positions2_shift (d : list (list (option R))) :
  ∀ g : nat → nat,
    mjoin (imap (λ i row, (λ j, (g i, j)) <$> finite_positions row) d)
    = (λ p : nat * nat, (g p.1, p.2)) <$> finite_positions2 d.
Proof.
  unfold finite_positions2.
  induction d as [| row d IH]; intros g; [reflexivity |].
  rewrite !imap_cons. simpl. rewrite fmap_app. f_equal.
  - rewrite <- list_fmap_compose. reflexivity.
  - pose proof (IH (g ∘ S)) as Hg. pose proof (IH S) as HS.
    unfold compose in Hg.
    change (mjoin (imap (λ i row0, (λ j, (g (S i), j)) <$> finite_positions row0) d)
            = (λ p : nat * nat, (g p.1, p.2))
                <$> mjoin (imap (λ i row0, (λ j, (S i, j)) <$> finite_positions row0) d)).
    rewrite Hg, HS.
    rewrite <- (list_fmap_compose (λ p : nat * nat, (S p.1, p.2))
                  (λ p : nat * nat, (g p.1, p.2))).
    reflexivity.
Qed.

Lemma finite_positions2_cons (row : list (option R)) (d : list (list (option R))) :
  finite_positions2 (row :: d)
  = ((λ j, (0%nat, j)) <$> finite_positions row)
    ++ ((λ p : nat * nat, (S p.1, p.2)) <$> finite_positions2 d).
Proof.
  unfold finite_positions2 at 1. rewrite imap_cons. simpl. f_equal.
  apply (finite_positions2_shift d S).
Qed.

(** In a row, the [k]-th selected position holds the [k]-th selected
    value. *)
Lemma finite_positions_lookup (row : list (option R)) :
  ∀ k j, finite_positions row !! k = Some j →
         ∃ v, row !! j = Some (Some v)
              ∧ omap (λ v : option R, v) row !! k = Some v.
Proof.
  induction row as [| u row IH]; intros k j Hk; [discriminate |].
  rewrite finite_positions_cons in Hk.
  destruct u as [r |]; simpl in Hk.
  - destruct k as [| k]; simpl in Hk.
    + injection Hk as <-. exists r. split; reflexivity.
    + rewrite list_lookup_fmap in Hk.
      destruct (finite_positions row !! k) as [j' |] eqn:Hj'; [| discriminate].
      injection Hk as <-. destruct (IH k j' Hj') as (v & Hv & Hval).
      exists v. split; assumption.
  - rewrite list_lookup_fmap in Hk.
    destruct (finite_positions row !! k) as [j' |] eqn:Hj'; [| discriminate].
    injection Hk as <-. destruct (IH k j' Hj') as (v & Hv & Hval).
    exists v. split; assumption.
Qed.

Lemma length_omap_finite (row : list (option R)) :
  length (omap (λ v : option R, v) row) = length (filter is_Some row).
Proof.
  induction row as [| u row IH]; [reflexivity |].
  rewrite filter_cons. destruct u as [r |].
  - rewrite decide_True by (eexists; reflexivity). simpl. f_equal. exact IH.
  - rewrite decide_False by (intros [? ?]; discriminate). exact IH.
Qed.

Lemma omap_app_values (l1 l2 : list (option R)) :
  omap (λ v : option R, v) (l1 ++ l2)
  = omap (λ v : option R, v) l1 ++ omap (λ v : option R, v) l2.
Proof.
  induction l1 as [| u l1 IH]; [reflexivity |].
  destruct u; simpl; [f_equal |]; exact IH.
Qed.

(** In an image, the [k]-th selected pixel position holds the [k]-th
    selected value. *)
Lemma finite_positions2_lookup (d : list (list (option R))) :
  ∀ k i j, finite_positions2 d !! k = Some (i, j) →
           ∃ row v, d !! i = Some row ∧ row !! j = Some (Some v)
                    ∧ omap (λ v : option R, v) (mjoin d) !! k = Some v.
Proof.
  induction d as [| row d IH]; intros k i j Hk; [discriminate |].
  rewrite finite_positions2_cons in Hk. simpl mjoin. rewrite omap_app_values.
  assert (Hlen : length ((λ j, (0%nat, j)) <$> finite_positions row)
                 = length (omap (λ v : option R, v) row)).
  { rewrite length_fmap, length_finite_positions, length_omap_finite. reflexivity. }
  destruct (decide (k < length (omap (λ v : option R, v) row))%nat) as [Hlt | Hge].
  - rewrite lookup_app_l in Hk by lia. rewrite list_lookup_fmap in Hk.
    destruct (finite_positions row !! k) as [j' |] eqn:Hj'; [| discriminate].
    injection Hk as <- <-. destruct (finite_positions_lookup row k j' Hj')
      as (v & Hv & Hval).
    exists row, v. rewrite lookup_app_l by assumption. repeat split; assumption.
  - rewrite lookup_app_r in Hk by lia. rewrite Hlen in Hk.
    rewrite list_lookup_fmap in Hk.
    destruct (finite_positions2 d
                !! (k - length (omap (λ v : option R, v) row))%nat)
      as [[i' j'] |] eqn:Hp; [| discriminate].
    injection Hk as <- <-. destruct (IH _ i' j' Hp) as (row' & v & Hrow & Hv & Hval).
    exists row', v. rewrite lookup_app_r by lia. repeat split; assumption.
Qed.

(** The mask of an image and the values it selects line up: the two index
    arrays of [np.where(np.isfinite(data))] and [data[mask]] all have as
    many entries as the image has finite pixels, and the [k]-th value of
    [data[mask]] is the finite pixel at the [k]-th pair of indices. *)
Theorem mask_selects_finite_pixels (d : list (list (option R))) :
  ∃ xs ys,
    where_finite (Obs2 d) = [xs; ys]
    ∧ length xs = count_finite (Obs2 d)
    ∧ length ys = count_finite (Obs2 d)
    ∧ length (masked_values (Obs2 d)) = count_finite (Obs2 d)
    ∧ ∀ k i j, xs !! k = Some i → ys !! k = Some j →
        ∃ row v, d !! i = Some row ∧ row !! j = Some (Some v)
                 ∧ masked_values (Obs2 d) !! k = Some v.
Proof.
  do 2 eexists. split; [reflexivity |]. simpl.
  rewrite !length_fmap, length_finite_positions2, length_omap_finite.
  repeat split.
  intros k i j Hi Hj. rewrite list_lookup_fmap in Hi, Hj.
  destruct (finite_positions2 d !! k) as [[i' j'] |] eqn:Hk; [| discriminate].
  simpl in Hi, Hj. injection Hi as <-. injection Hj as <-.
  apply (finite_positions2_lookup d k i' j' Hk).
Qed.

(** ** Residuals *)

Lemma length_scaled (n : nat) (g : list (option R)) :
  length (scaled n g) = length g.
Proof. unfold scaled. apply length_fmap. Qed.

Lemma length_sub_arrays (m : list (option R)) (values : list R) :
  length (sub_arrays m values) = (length m `min` length values)%nat.
Proof. unfold sub_arrays. apply length_zip_with. Qed.

Lemma length_vec_dot (n : nat) (v : list (option R)) (B : mat) :
  length (vec_dot n v B) = n.
Proof. unfold vec_dot. rewrite length_fmap. apply length_seq. Qed.

Lemma length_masked_values (data : observation) :
  length (masked_values data) = count_finite data.
Proof. destruct data; simpl; apply length_omap_finite. Qed.

Lemma length_residual_of (m : list (option R)) (values : list R) (B : option mat) :
  length m = length values →
  ∃ r, residual_of (Some m) values B = Returned r ∧ length r = length values.
Proof.
  intros Hlen. unfold residual_of.
  destruct B as [B |]; eexists; (split; [reflexivity |]).
  - rewrite length_vec_dot, length_sub_arrays. lia.
  - rewrite length_sub_arrays. lia.
Qed.

Lemma length_coords (idx : list nat) : length (coords idx) = length idx.
Proof. unfold coords. apply length_fmap. Qed.

Lemma lmfit_model_image (d : list (list (option R))) (pars : Params) :
  lmfit_model (Obs2 d) pars
  = ntwodgaussian_lmfit pars
      (coords ((λ q : nat * nat, q.1) <$> finite_positions2 d))
      (coords ((λ q : nat * nat, q.2) <$> finite_positions2 d)).
Proof. reflexivity. Qed.

Lemma lmfit_model_row (d : list (option R)) (pars : Params) (amp cen sigma : R) :
  reads1d pars amp cen sigma →
  lmfit_model (Obs1 d) pars
  = Returned (Some (gaussian (coords (finite_positions d)) amp cen sigma)).
Proof.
  intros (Ha & Hc & Hs). unfold lmfit_model. simpl. rewrite Ha, Hc, Hs.
  reflexivity.
Qed.

Lemma erfunc_image (d : list (list (option R))) (B : option mat) (p : list R)
    (c : component) (cs : list component) :
  groups_of_six p = Some (c :: cs) →
  erfunc (Obs2 d) B p
  = residual_of
      (Some (multi_gaussian_sum (c :: cs)
               (coords ((λ q : nat * nat, q.1) <$> finite_positions2 d))
               (coords ((λ q : nat * nat, q.2) <$> finite_positions2 d))))
      (masked_values (Obs2 d)) B
    ≫= λ r, Returned (0%Z, r).
Proof.
  intros Hp. unfold erfunc. rewrite (ntwodgaussian_mpfit_grouped p (c :: cs) Hp).
  unfold mbind, outcome_bind, where_finite. cbv beta iota.
  rewrite rfunc_mpfit_loop_start. reflexivity.
Qed.

(** Masked samples never reach the residual: whenever the model can be
    evaluated, the residual that either driver hands to its solver has
    exactly one entry per finite sample of the data, with or without a
    whitening matrix. *)
Theorem residual_has_one_entry_per_finite_sample
    (d2 : list (list (option R))) (d1 : list (option R)) (B : option mat)
    (pars2 pars1 : Params) (n : nat) (amp xo yo sx sy theta a1 cen sigma : R)
    (p : list R) (c : component) (cs : list component) :
  reads2d pars2 amp xo yo sx sy theta →
  components pars2 = Some (S n) →
  reads1d pars1 a1 cen sigma →
  groups_of_six p = Some (c :: cs) →
  (∃ r, residual (Obs2 d2) B pars2 = Returned r
        ∧ length r = count_finite (Obs2 d2))
  ∧ (∃ r, residual (Obs1 d1) B pars1 = Returned r
          ∧ length r = count_finite (Obs1 d1))
  ∧ (∃ r, erfunc (Obs2 d2) B p = Returned (0%Z, r)
          ∧ length r = count_finite (Obs2 d2)).
Proof.
  intros H2 Hn H1 Hp.
  assert (Hxy : length (coords ((λ q : nat * nat, q.1) <$> finite_positions2 d2))
                = length (masked_values (Obs2 d2))
                ∧ length (coords ((λ q : nat * nat, q.2) <$> finite_positions2 d2))
                  = length (masked_values (Obs2 d2))).
  { rewrite !length_coords, !length_fmap, length_masked_values,
      length_finite_positions2. split; reflexivity. }
  destruct Hxy as [Hx Hy].
  split; [| split].
  - unfold residual. rewrite lmfit_model_image.
    rewrite (ntwodgaussian_lmfit_value pars2 (S n) _ _ _ _ _ _ _ _ H2 Hn).
    destruct (length_residual_of
                (scaled (S n)
                   (elliptical_gaussian
                      (coords ((λ q : nat * nat, q.1) <$> finite_positions2 d2))
                      (coords ((λ q : nat * nat, q.2) <$> finite_positions2 d2))
                      amp xo yo sx sy theta))
                (masked_values (Obs2 d2)) B) as (r & Hr & Hlen).
    { rewrite length_scaled, length_elliptical_gaussian. lia. }
    exists r. split; [exact Hr |]. rewrite Hlen. apply length_masked_values.
  - unfold residual. rewrite (lmfit_model_row d1 pars1 a1 cen sigma H1).
    destruct (length_residual_of
                (gaussian (coords (finite_positions d1)) a1 cen sigma)
                (masked_values (Obs1 d1)) B) as (r & Hr & Hlen).
    { unfold gaussian. rewrite length_fmap, length_coords,
        length_finite_positions, length_masked_values. reflexivity. }
    exists r. split; [exact Hr |]. rewrite Hlen. apply length_masked_values.
  - rewrite (erfunc_image d2 B p c cs Hp).
    destruct (length_residual_of
                (multi_gaussian_sum (c :: cs)
                   (coords ((λ q : nat * nat, q.1) <$> finite_positions2 d2))
                   (coords ((λ q : nat * nat, q.2) <$> finite_positions2 d2)))
                (masked_values (Obs2 d2)) B) as (r & Hr & Hlen).
    { rewrite length_multi_gaussian_sum. lia. }
    exists r. rewrite Hr. simpl. split; [reflexivity |].
    rewrite Hlen. apply length_masked_values.
Qed.

Lemma residual_has_one_entry_per_finite_sample_witness :
  (∃ r, residual (Obs2 [[Some 1; None]; [Some 2; Some 3]]) None
          (gaussian2d_params 1 7.5 6 2.54 1.27 0) = Returned r
        ∧ length r = count_finite (Obs2 [[Some 1; None]; [Some 2; Some 3]]))
  ∧ (∃ r, residual (Obs1 [Some 1; None; Some 3]) None (gaussian1d_params 1 7 2)
          = Returned r
          ∧ length r = count_finite (Obs1 [Some 1; None; Some 3]))
  ∧ (∃ r, erfunc (Obs2 [[Some 1; None]; [Some 2; Some 3]]) None
            [1; 0; 0; 2; 1; 0] = Returned (0%Z, r)
          ∧ length r = count_finite (Obs2 [[Some 1; None]; [Some 2; Some 3]])).
Proof.
  apply (residual_has_one_entry_per_finite_sample
           [[Some 1; None]; [Some 2; Some 3]] [Some 1; None; Some 3] None
           (gaussian2d_params 1 7.5 6 2.54 1.27 0) (gaussian1d_params 1 7 2)
           0 1 7.5 6 2.54 1.27 0 1 7 2 [1; 0; 0; 2; 1; 0] (1, 0, 0, 2, 1, 0) []).
  - apply reads2d_gaussian2d_params.
  - reflexivity.
  - apply reads1d_gaussian1d_params.
  - reflexivity.
Defined.

Lemma finite_positions_all (vs : list R) :
  finite_positions (Some <$> vs) = seq 0 (length vs).
Proof.
  induction vs as [| v vs IH]; [reflexivity |].
  rewrite fmap_cons, finite_positions_cons, IH.
  rewrite decide_True by (eexists; reflexivity).
  simpl. f_equal. apply fmap_S_seq.
Qed.

Lemma masked_values_all (vs : list R) :
  omap (λ v : option R, v) (Some <$> vs) = vs.
Proof. induction vs as [| v vs IH]; [reflexivity |]. simpl. f_equal. exact IH. Qed.

Lemma gaussian_values (x : list R) (amp cen sigma : R) :
  sigma ≠ 0 →
  gaussian x amp cen sigma = Some <$> ((λ xi, gaussian_value xi amp cen sigma) <$> x).
Proof.
  intros Hs. unfold gaussian. rewrite <- list_fmap_compose.
  apply list_fmap_ext. intros i xi _. simpl.
  rewrite gaussian_value_defined, gaussian_at_defined by assumption. reflexivity.
Qed.

Lemma sub_arrays_self (vs : list R) :
  Forall (λ e, e = Some 0) (sub_arrays (Some <$> vs) vs).
Proof.
  unfold sub_arrays. induction vs as [| v vs IH]; simpl; [apply Forall_nil_2 |].
  apply Forall_cons_2; [| exact IH]. f_equal. ring.
Qed.

(** At the parameters that generated noise-free data the residual is zero:
    for data equal to [gaussian] evaluated with [pars] at the pixel indices
    [0 .. n-1], as [test1d] builds its signal, the residual of [do_lmfit]
    with [D = 1] and no whitening has [n] entries, all equal to 0. *)
Theorem residual_vanishes_on_model_data
    (pars : Params) (amp cen sigma : R) (n : nat) :
  reads1d pars amp cen sigma →
  sigma ≠ 0 →
  ∃ r,
    residual (Obs1 (gaussian (coords (seq 0 n)) amp cen sigma)) None pars
    = Returned r
    ∧ length r = n
    ∧ Forall (λ e, e = Some 0) r.
Proof.
  intros Hreads Hs. unfold residual.
  rewrite (lmfit_model_row _ pars amp cen sigma Hreads).
  rewrite (gaussian_values (coords (seq 0 n)) amp cen sigma Hs).
  set (vs := (λ xi, gaussian_value xi amp cen sigma) <$> coords (seq 0 n)).
  assert (Hlen : length vs = n).
  { unfold vs. rewrite length_fmap, length_coords. apply length_seq. }
  rewrite finite_positions_all, Hlen.
  rewrite (gaussian_values (coords (seq 0 n)) amp cen sigma Hs). fold vs.
  simpl. rewrite masked_values_all.
  eexists. split; [reflexivity |]. split.
  - rewrite length_sub_arrays, length_fmap. lia.
  - apply sub_arrays_self.
Qed.

Lemma residual_vanishes_on_model_data_witness :
  ∃ r,
    residual (Obs1 (gaussian (coords (seq 0 15)) 1 7.5 1.5)) None
      (gaussian1d_params 1 7.5 1.5)
    = Returned r
    ∧ length r = 15%nat
    ∧ Forall (λ e, e = Some 0) r.
Proof.
  apply residual_vanishes_on_model_data;
    [apply reads1d_gaussian1d_params | lra].
Defined.

Lemma erfunc_no_component (d2 : list (list (option R))) (B : option mat) :
  erfunc (Obs2 d2) B []
  = (r ← residual_of None (masked_values (Obs2 d2)) B; mret (0%Z, r)).
Proof. reflexivity. Qed.

(** How [erfunc] of [do_mpfit] fails. A parameter vector whose length is
    not a multiple of 6 raises the [ValueError] of the reshape whatever the
    data is; one-dimensional data raises a [TypeError] for every vector of
    a right length, because the model function takes two index arrays; and
    the empty vector, whose model is [None], raises a [TypeError] on an
    image with a finite pixel, and gives an empty residual on an image
    without one. *)
Theorem erfunc_errors (B : option mat) (p : list R) :
  (∀ data, (length p `mod` 6 ≠ 0)%nat → erfunc data B p = Raised ValueError)
  ∧ (∀ d1, (length p `mod` 6 = 0)%nat → erfunc (Obs1 d1) B p = Raised TypeError)
  ∧ (∀ d2, count_finite (Obs2 d2) ≠ 0%nat →
           erfunc (Obs2 d2) B [] = Raised TypeError)
  ∧ (∀ d2, count_finite (Obs2 d2) = 0%nat →
           erfunc (Obs2 d2) B [] = Returned (0%Z, [])).
Proof.
  split; [| split; [| split]].
  - intros data Hmod. unfold erfunc, ntwodgaussian_mpfit, reshape.
    rewrite decide_False; [reflexivity |].
    intros Heq. apply Hmod. rewrite <- Heq. apply Nat.Div0.mod_mul.
  - intros d1 Hmod.
    destruct (groups_of_six_total (length p / 6) p) as (cs & Hcs & _).
    { pose proof (Nat.div_mod_eq (length p) 6). lia. }
    unfold erfunc. rewrite (ntwodgaussian_mpfit_grouped p cs Hcs). reflexivity.
  - intros d2 Hcount. rewrite erfunc_no_component.
    rewrite <- length_masked_values in Hcount.
    destruct (masked_values (Obs2 d2)); [contradiction | reflexivity].
  - intros d2 Hcount. rewrite erfunc_no_component.
    rewrite <- length_masked_values in Hcount.
    destruct (masked_values (Obs2 d2)); [reflexivity | discriminate].
Qed.

Lemma erfunc_errors_witness :
  erfunc image_1x1 None [1; 2; 3] = Raised ValueError
  ∧ erfunc (Obs1 [Some 1]) None [1; 0; 0; 2; 1; 0] = Raised TypeError
  ∧ erfunc image_1x1 None [] = Raised TypeError
  ∧ erfunc (Obs2 [[None]]) None [] = Returned (0%Z, []).
Proof.
  split; [| split; [| split]].
  - apply (proj1 (erfunc_errors None [1; 2; 3])). simpl. lia.
  - apply (proj1 (proj2 (erfunc_errors None [1; 0; 0; 2; 1; 0]))). reflexivity.
  - apply (proj1 (proj2 (proj2 (erfunc_errors None [])))). simpl. lia.
  - apply (proj2 (proj2 (proj2 (erfunc_errors None [])))). reflexivity.
Defined.

(** ** Whitened covariance *)

(** The matrix that [Bmatrix] returns whitens [C]: when the computed
    eigenvalues are all positive (and the eigensolver honours its
    contract), [B^T . C . B] is the identity, so residuals multiplied by
    [B] have unit covariance. *)
Theorem Bmatrix_whitens_covariance
    (eigh : nat → mat → vec * mat) (n : nat) (C : mat) :
  eigh_contract n C (eigh n C) →
  (∀ i, (i < n)%nat → 0 < (eigh n C).1 i) →
  ∃ B, Bmatrix eigh n C = Returned B
       ∧ mat_eq n (mmul n (mmul n (mtrans B) C) B) identity.
Proof.
  intros Hcontract Hpos. rewrite Bmatrix_unfold.
  rewrite (proj2 (all_positive_spec n _) Hpos).
  destruct (eigh n C) as [L Q] eqn:HLQ. simpl in *.
  eexists. split; [reflexivity |].
  intros i j Hi Hj.
  set (s := λ k, 1 / sqrt (L k)).
  assert (HB : ∀ a k, (k < n)%nat → mmul n Q (diag s) a k = Q a k * s k).
  { intros a k Hk. apply mmul_diag_r. assumption. }
  unfold mmul at 1.
  rewrite (vsum_ext n _ (λ k, s i * s j * vsum n (λ m, Q m i * (C m k * Q k j)))).
  2:{ intros k Hk. rewrite HB by assumption. unfold mmul at 1, mtrans.
      rewrite <- !vsum_scale. rewrite Rmult_comm, <- vsum_scale.
      apply vsum_ext. intros m Hm. rewrite HB by assumption. ring. }
  rewrite vsum_scale, vsum_swap.
  rewrite (vsum_ext n _ (λ m, L j * (Q m i * Q m j))).
  2:{ intros m Hm.
      rewrite vsum_scale, (eigen_columns n C L Q Hcontract) by assumption. ring. }
  rewrite vsum_scale, (columns_orthonormal n C L Q Hcontract) by assumption.
  rewrite identity_entry. destruct (decide (i = j)) as [-> | Hne]; [| ring].
  specialize (Hpos j Hj). unfold s.
  assert (Hs : sqrt (L j) * sqrt (L j) = L j) by (apply sqrt_sqrt; lra).
  assert (Hs0 : sqrt (L j) ≠ 0) by (intros Hz; rewrite Hz in Hs; lra).
  revert Hs Hs0. generalize (sqrt (L j)) as r. intros r Hs Hs0.
  rewrite <- Hs.
  replace (1 / r * (1 / r) * (r * r * 1)) with ((r * / r) * (r * / r))
    by (unfold Rdiv; ring).
  rewrite Rinv_r by assumption. ring.
Qed.

Lemma Bmatrix_whitens_covariance_witness :
  ∃ B, Bmatrix eigh_diagonal 2 definite_2x2 = Returned B
       ∧ mat_eq 2 (mmul 2 (mmul 2 (mtrans B) definite_2x2) B) identity.
Proof.
  apply (Bmatrix_whitens_covariance eigh_diagonal 2 definite_2x2).
  - apply eigh_diagonal_contract.
  - intros i _. simpl. unfold definite_2x2, diag.
    rewrite decide_True by reflexivity. destruct (decide (i = 0%nat)); lra.
Defined.

(** ** Correlation matrices *)

Lemma gaussian_at_kernel (xi xj sigma : R) :
  sigma ≠ 0 →
  ∃ v, gaussian_at xj 1 xi (1 * sigma) = Some v
       ∧ gaussian_at xi 1 xj (1 * sigma) = Some v
       ∧ 0 < v <= 1 ∧ (xi = xj → v = 1).
Proof.
  intros Hs. assert (Hs1 : 1 * sigma ≠ 0) by lra.
  rewrite !gaussian_at_defined by assumption.
  exists (1 * exp (- (1 / 2) * ((xj - xi) / (1 * sigma)) ^ 2)).
  split; [reflexivity |]. split; [| split].
  - do 3 f_equal. field. assumption.
  - pose proof (pow2_ge_0 ((xj - xi) / (1 * sigma))) as Hsq.
    destruct (exp_nonpositive (- (1 / 2) * ((xj - xi) / (1 * sigma)) ^ 2));
      lra.
  - intros ->.
    replace (- (1 / 2) * ((xj - xj) / (1 * sigma)) ^ 2) with 0
      by (field; assumption).
    rewrite exp_0. ring.
Qed.

Lemma vstack_rows (rows : list (list (option R))) :
  rows ≠ [] → vstack rows = Returned rows.
Proof. destruct rows; [contradiction | reflexivity]. Qed.

Lemma entry_gaussian_rows (x : list R) (sigma : R) (i j : nat) (xi xj : R) :
  x !! i = Some xi → x !! j = Some xj →
  entry ((λ c, gaussian x 1 c (1 * sigma)) <$> x) i j
  = Some (gaussian_at xj 1 xi (1 * sigma)).
Proof.
  intros Hi Hj. unfold entry, gaussian.
  rewrite list_lookup_fmap, Hi. simpl. rewrite list_lookup_fmap, Hj. reflexivity.
Qed.

(** [Cmatrix] builds a correlation matrix: for [sigma] not zero and at
    least one sample it is square of the size of [x], symmetric, its
    entries lie between 0 and 1, and the entries of two equal coordinates
    (so the whole diagonal) are 1. Without a sample there is no row to
    stack, and the call raises a [ValueError]. *)
Theorem Cmatrix_correlation (x : list R) (sigma : R) :
  sigma ≠ 0 →
  (x = [] → Cmatrix x sigma = Raised ValueError)
  ∧ (x ≠ [] →
     ∃ C, Cmatrix x sigma = Returned C
          ∧ length C = length x
          ∧ Forall (λ row : list (option R), length row = length x) C
          ∧ ∀ i j xi xj, x !! i = Some xi → x !! j = Some xj →
              ∃ v, entry C i j = Some (Some v)
                   ∧ entry C j i = Some (Some v)
                   ∧ 0 <= v <= 1 ∧ (xi = xj → v = 1)).
Proof.
  intros Hs. split; [intros ->; reflexivity |]. intros Hx.
  exists ((λ c, gaussian x 1 c (1 * sigma)) <$> x). split; [| split; [| split]].
  - unfold Cmatrix. apply vstack_rows. destruct x; [contradiction | discriminate].
  - apply length_fmap.
  - apply Forall_fmap, Forall_forall. intros xi _. simpl.
    unfold gaussian. apply length_fmap.
  - intros i j xi xj Hi Hj.
    rewrite (entry_gaussian_rows x sigma i j xi xj Hi Hj).
    rewrite (entry_gaussian_rows x sigma j i xj xi Hj Hi).
    destruct (gaussian_at_kernel xi xj sigma Hs) as (v & H1 & H2 & Hv & Hd).
    exists v. rewrite H1, H2. repeat split; try assumption; lra.
Qed.

Lemma Cmatrix_correlation_witness :
  ∃ C, Cmatrix [0; 1; 2] 1.5 = Returned C
       ∧ length C = length [0; 1; 2]
       ∧ Forall (λ row : list (option R), length row = length [0; 1; 2]) C
       ∧ ∀ i j xi xj, [0; 1; 2] !! i = Some xi → [0; 1; 2] !! j = Some xj →
           ∃ v, entry C i j = Some (Some v)
                ∧ entry C j i = Some (Some v)
                ∧ 0 <= v <= 1 ∧ (xi = xj → v = 1).
Proof.
  assert (Hs : 1.5 ≠ 0) by lra.
  apply (proj2 (Cmatrix_correlation [0; 1; 2] 1.5 Hs)). discriminate.
Defined.

Lemma elliptical_gaussian_at_kernel (xk yk xl yl sx sy theta : R) :
  sx ≠ 0 → sy ≠ 0 →
  ∃ v, elliptical_gaussian_at xl yl 1 xk yk sx sy theta = Some v
       ∧ elliptical_gaussian_at xk yk 1 xl yl sx sy theta = Some v
       ∧ 0 < v <= 1 ∧ (xk = xl → yk = yl → v = 1).
Proof.
  intros Hx Hy. rewrite !elliptical_gaussian_at_defined by assumption.
  eexists. split; [reflexivity |]. split; [| split].
  - do 3 f_equal. field. split; assumption.
  - set (a := ((xl - xk) * cos theta + (yl - yk) * sin theta) ^ 2 / sx ^ 2).
    set (b := ((xl - xk) * sin theta - (yl - yk) * cos theta) ^ 2 / sy ^ 2).
    assert (Ha : 0 <= a) by (apply square_ratio_nonneg; assumption).
    assert (Hb : 0 <= b) by (apply square_ratio_nonneg; assumption).
    destruct (exp_nonpositive ((a + b) * (-1 / 2))); lra.
  - intros -> ->.
    replace ((((xl - xl) * cos theta + (yl - yl) * sin theta) ^ 2 / sx ^ 2
              + ((xl - xl) * sin theta - (yl - yl) * cos theta) ^ 2 / sy ^ 2)
             * (-1 / 2)) with 0 by (field; split; assumption).
    rewrite exp_0. ring.
Qed.

Lemma entry_elliptical_rows (x y : list R) (sx sy theta : R) (k l : nat)
    (xk yk xl yl : R) :
  x !! k = Some xk → y !! k = Some yk → x !! l = Some xl → y !! l = Some yl →
  entry ((λ p : R * R, elliptical_gaussian x y 1 p.1 p.2 sx sy theta) <$> zip x y)
    k l
  = Some (elliptical_gaussian_at xl yl 1 xk yk sx sy theta).
Proof.
  intros Hxk Hyk Hxl Hyl. unfold entry, elliptical_gaussian.
  rewrite list_lookup_fmap, lookup_zip_with, Hxk. simpl. rewrite Hyk. simpl.
  rewrite lookup_zip_with, Hxl. simpl. rewrite Hyl. reflexivity.
Qed.

(** [Cmatrix2d] builds a correlation matrix: for coordinate arrays of the
    same length, at least one sample, and widths (not zero) and coordinates
    of moderate size it is square of that size, symmetric, its entries lie
    between 0 and 1, and the entries of two samples at the same place (so
    the whole diagonal) are 1. Without a sample there is no row to stack,
    and the call raises a [ValueError]. *)
Theorem Cmatrix2d_correlation (x y : list R) (sx sy theta : R) :
  length x = length y →
  moderate sx → moderate sy →
  Forall bounded x → Forall bounded y →
  (x = [] → Cmatrix2d x y sx sy theta = Raised ValueError)
  ∧ (x ≠ [] →
     ∃ C, Cmatrix2d x y sx sy theta = Returned C
          ∧ length C = length x
          ∧ Forall (λ row : list (option R), length row = length x) C
          ∧ ∀ k l xk yk xl yl,
              x !! k = Some xk → y !! k = Some yk →
              x !! l = Some xl → y !! l = Some yl →
              ∃ v, entry C k l = Some (Some v)
                   ∧ entry C l k = Some (Some v)
                   ∧ 0 <= v <= 1 ∧ (xk = xl → yk = yl → v = 1)).
Proof.
  intros Hlen Hx%moderate_nonzero Hy%moderate_nonzero _ _.
  split; [intros ->; reflexivity |]. intros Hne.
  exists ((λ p : R * R, elliptical_gaussian x y 1 p.1 p.2 sx sy theta) <$> zip x y).
  split; [| split; [| split]].
  - unfold Cmatrix2d. apply vstack_rows.
    destruct x, y; try contradiction; discriminate.
  - rewrite length_fmap, length_zip_with. lia.
  - apply Forall_fmap, Forall_forall. intros p _. simpl.
    rewrite length_elliptical_gaussian. lia.
  - intros k l xk yk xl yl Hxk Hyk Hxl Hyl.
    rewrite (entry_elliptical_rows x y sx sy theta k l xk yk xl yl) by assumption.
    rewrite (entry_elliptical_rows x y sx sy theta l k xl yl xk yk) by assumption.
    destruct (elliptical_gaussian_at_kernel xk yk xl yl sx sy theta Hx Hy)
      as (v & H1 & H2 & Hv & Hd).
    exists v. rewrite H1, H2. repeat split; try assumption; lra.
Qed.

Lemma Cmatrix2d_correlation_witness :
  ∃ C, Cmatrix2d [0; 0; 1] [0; 1; 1] 1.27 1.27 0 = Returned C
       ∧ length C = length [0; 0; 1]
       ∧ Forall (λ row : list (option R), length row = length [0; 0; 1]) C
       ∧ ∀ k l xk yk xl yl,
           [0; 0; 1] !! k = Some xk → [0; 1; 1] !! k = Some yk →
           [0; 0; 1] !! l = Some xl → [0; 1; 1] !! l = Some yl →
           ∃ v, entry C k l = Some (Some v)
                ∧ entry C l k = Some (Some v)
                ∧ 0 <= v <= 1 ∧ (xk = xl → yk = yl → v = 1).
Proof.
  assert (Hs : moderate 1.27) by (apply moderate_of_range; lra).
  assert (Hx : Forall bounded [0; 0; 1])
    by (repeat apply Forall_cons_2; try apply Forall_nil_2;
        apply bounded_of_range; lra).
  assert (Hy : Forall bounded [0; 1; 1])
    by (repeat apply Forall_cons_2; try apply Forall_nil_2;
        apply bounded_of_range; lra).
  apply (proj2 (Cmatrix2d_correlation [0; 0; 1] [0; 1; 1] 1.27 1.27 0
                  eq_refl Hs Hs Hx Hy)).
  discriminate.
Defined.

(** ** Cramér-Rao bounds *)

Lemma mmul_assoc (n : nat) (A B C : mat) (i j : nat) :
  mmul n (mmul n A B) C i j = mmul n A (mmul n B C) i j.
Proof.
  unfold mmul.
  rewrite (vsum_ext n _ (λ k, vsum n (λ l, A i l * B l k * C k j))).
  2:{ intros k _. rewrite Rmult_comm, <- vsum_scale.
      apply vsum_ext. intros; ring. }
  rewrite vsum_swap. apply vsum_ext. intros l _.
  rewrite <- vsum_scale. apply vsum_ext. intros; ring.
Qed.

Lemma mmul_identity_r (n : nat) (A : mat) (i j : nat) :
  (j < n)%nat → mmul n A identity i j = A i j.
Proof.
  intros Hj. unfold identity. rewrite mmul_diag_r by assumption. ring.
Qed.

Lemma mmul_identity_l (n : nat) (A : mat) (i j : nat) :
  (i < n)%nat → mmul n identity A i j = A i j.
Proof.
  intros Hi. unfold mmul.
  rewrite (vsum_ext n _ (λ k, if decide (k = i) then A k j else 0)).
  - apply (vsum_pick n i (λ k, A k j)). assumption.
  - intros k _. unfold identity, diag.
    destruct (decide (i = k)), (decide (k = i)); try congruence; ring.
Qed.

Lemma mmul_ext_r (n : nat) (A B B' : mat) (i j : nat) :
  (∀ k, (k < n)%nat → B k j = B' k j) → mmul n A B i j = mmul n A B' i j.
Proof.
  intros H. unfold mmul. apply vsum_ext. intros k Hk. rewrite (H k Hk).
  reflexivity.
Qed.

Lemma mmul_ext_l (n : nat) (A A' B : mat) (i j : nat) :
  (∀ k, (k < n)%nat → A i k = A' i k) → mmul n A B i j = mmul n A' B i j.
Proof.
  intros H. unfold mmul. apply vsum_ext. intros k Hk. rewrite (H k Hk).
  reflexivity.
Qed.

(** An array has at most one inverse. *)
Lemma inverse_unique (n : nat) (C X Y : mat) :
  is_inverse n C X → is_inverse n C Y → mat_eq n X Y.
Proof.
  intros [_ HXC] [HCY _] i j Hi Hj.
  rewrite <- (mmul_identity_r n X i j Hj).
  rewrite (mmul_ext_r n X identity (mmul n C Y) i j).
  2:{ intros k Hk. symmetry. apply HCY; assumption. }
  rewrite <- mmul_assoc.
  rewrite (mmul_ext_l n (mmul n X C) identity Y i j).
  2:{ intros k Hk. apply HXC; assumption. }
  apply mmul_identity_l. assumption.
Qed.

(** The two branches of [CRB_errs] agree: when [B . B^T] is the inverse of
    [C], as it is for the [B] of [Bmatrix], the errors computed from the
    whitening matrix are the errors computed from [inv(C)]. *)
Theorem CRB_errs_whitened_agrees
    (inv : nat → mat → outcome mat) (m p : nat) (jac C B Cinv : mat) :
  inv m C = Returned Cinv →
  is_inverse m C Cinv →
  is_inverse m C (mmul m B (mtrans B)) →
  CRB_errs inv m p jac C (Some B) = CRB_errs inv m p jac C None.
Proof.
  intros Hinv HCinv HB. unfold CRB_errs. rewrite Hinv. simpl.
  pose proof (inverse_unique m C _ _ HB HCinv) as Heq.
  assert (Hfim : mmul m (mmul m (mmul m (mtrans jac) B) (mtrans B)) jac
                 = mmul m (mmul m (mtrans jac) Cinv) jac).
  { apply functional_extensionality. intros i.
    apply functional_extensionality. intros j.
    apply mmul_ext_l. intros k Hk.
    rewrite mmul_assoc. apply mmul_ext_r. intros l Hl.
    apply Heq; assumption. }
  rewrite Hfim. reflexivity.
Qed.

Lemma CRB_errs_whitened_agrees_witness :
  CRB_errs inv_diagonal 2 1 (λ _ _, 1) definite_2x2
    (Some (diag (λ i, if decide (i = 0%nat) then / 2 else / 3)))
  = CRB_errs inv_diagonal 2 1 (λ _ _, 1) definite_2x2 None.
Proof.
  apply (CRB_errs_whitened_agrees inv_diagonal 2 1 (λ _ _, 1) definite_2x2
           (diag (λ i, if decide (i = 0%nat) then / 2 else / 3))
           (diag (λ i, / definite_2x2 i i))).
  - reflexivity.
  - split; intros i j Hi Hj;
      destruct i as [| [| i]], j as [| [| j]]; try lia;
      unfold mmul, mtrans, definite_2x2, identity, diag; simpl; field.
  - split; intros i j Hi Hj;
      destruct i as [| [| i]], j as [| [| j]]; try lia;
      unfold mmul, mtrans, definite_2x2, identity, diag; simpl; field.
Defined.


(** ** Geometric mean *)

Lemma array_min_lower (first : R) (rest : list R) :
  Forall (λ v, array_min first rest <= v) (first :: rest).
Proof.
  unfold array_min. induction rest as [| v rest IH]; simpl.
  - apply Forall_cons_2; [lra | apply Forall_nil_2].
  - pose proof (Rmin_l v (foldr Rmin first rest)) as Hl.
    pose proof (Rmin_r v (foldr Rmin first rest)) as Hr.
    apply Forall_cons_1 in IH as [Hfirst Hrest].
    apply Forall_cons_2; [lra |]. apply Forall_cons_2; [assumption |].
    eapply Forall_impl; [exact Hrest |]. intros w Hw. simpl in Hw. lra.
Qed.

Lemma sum_at_most (l : list R) (b : R) :
  Forall (λ v, v <= b) l → foldr Rplus 0 l <= INR (length l) * b.
Proof.
  induction 1 as [| v l Hv _ IH]; [simpl; lra |].
  change (length (v :: l)) with (S (length l)). rewrite S_INR. simpl. lra.
Qed.

Lemma sum_at_least (l : list R) (a : R) :
  Forall (λ v, a <= v) l → INR (length l) * a <= foldr Rplus 0 l.
Proof.
  induction 1 as [| v l Hv _ IH]; [simpl; lra |].
  change (length (v :: l)) with (S (length l)). rewrite S_INR. simpl. lra.
Qed.

Lemma positive_length (l : list R) : l ≠ [] → 0 < INR (length l).
Proof. intros Hne. destruct l; [contradiction |]. apply lt_0_INR. simpl. lia. Qed.

Lemma mean_at_most (l : list R) (b : R) :
  l ≠ [] → Forall (λ v, v <= b) l → mean l <= b.
Proof.
  intros Hne Hl. pose proof (sum_at_most l b Hl) as Hsum.
  pose proof (positive_length l Hne) as Hn. unfold mean.
  apply Rmult_le_reg_r with (r := INR (length l)); [assumption |].
  unfold Rdiv. rewrite Rmult_assoc, Rinv_l by lra. lra.
Qed.

Lemma mean_at_least (l : list R) (a : R) :
  l ≠ [] → Forall (λ v, a <= v) l → a <= mean l.
Proof.
  intros Hne Hl. pose proof (sum_at_least l a Hl) as Hsum.
  pose proof (positive_length l Hne) as Hn. unfold mean.
  apply Rmult_le_reg_r with (r := INR (length l)); [assumption |].
  unfold Rdiv. rewrite Rmult_assoc, Rinv_l by lra. lra.
Qed.

Lemma ln_monotone (u v : R) : 0 < u → u <= v → ln u <= ln v.
Proof.
  intros Hu [Hlt | ->]; [| lra]. left. apply ln_increasing; assumption.
Qed.

Lemma exp_monotone (u v : R) : u <= v → exp u <= exp v.
Proof. intros [Hlt | ->]; [| lra]. left. apply exp_increasing; assumption. Qed.

(** The geometric mean lies among the data: when the data holds no
    [+inf] and at least one finite value, and the finite values are of
    moderate size (within [-1e15, 1e15], far from overflow), [gmean]
    returns a finite flux that lies in every such interval that contains
    all the finite values, and an error that is not negative; entries that
    are [nan] or [-inf] play no part. *)
Theorem gmean_between (indata : list fvalue) (a b : R) :
  has_inf indata = false →
  finite_values indata ≠ [] →
  -1e15 <= a → b <= 1e15 →
  Forall (λ v, a <= v <= b) (finite_values indata) →
  ∃ flux err,
    gmean indata = (Fin flux, Fin err) ∧ a <= flux <= b ∧ 0 <= err.
Proof.
  intros Hinf Hne _ _ Hab. unfold gmean. rewrite Hinf.
  destruct (finite_values indata) as [| first rest] eqn:Hfin; [contradiction |].
  do 2 eexists. split; [reflexivity |]. split; [| apply Rabs_pos].
  pose proof (array_min_lower first rest) as Hlo.
  set (lo := array_min first rest) in *. set (scale := Rabs lo + 1).
  assert (Hshift : 0 <= lo + Rabs lo).
  { unfold Rabs. destruct (Rcase_abs lo); lra. }
  assert (Hb : 1 <= b + scale).
  { apply Forall_cons_1 in Hab as [Hf _].
    apply Forall_cons_1 in Hlo as [Hl _]. unfold scale. lra. }
  set (lfinite := ln <$> ((λ v, v + scale) <$> (first :: rest))).
  assert (Hnonempty : lfinite ≠ []) by discriminate.
  assert (Hupper : Forall (λ w, w <= ln (b + scale)) lfinite).
  { unfold lfinite. rewrite <- list_fmap_compose. apply Forall_fmap.
    rewrite Forall_forall in Hab, Hlo. apply Forall_forall. intros v Hv.
    specialize (Hab v Hv). specialize (Hlo v Hv). simpl.
    apply ln_monotone; unfold scale; lra. }
  assert (Hlower : 0 < a + scale → Forall (λ w, ln (a + scale) <= w) lfinite).
  { intros Ha. unfold lfinite. rewrite <- list_fmap_compose. apply Forall_fmap.
    rewrite Forall_forall in Hab. apply Forall_forall. intros v Hv.
    specialize (Hab v Hv). simpl. apply ln_monotone; lra. }
  split.
  - destruct (Rlt_dec 0 (a + scale)) as [Ha | Ha].
    + pose proof (mean_at_least lfinite _ Hnonempty (Hlower Ha)) as Hm.
      apply exp_monotone in Hm. rewrite exp_ln in Hm by assumption. lra.
    + pose proof (exp_pos (mean lfinite)). lra.
  - pose proof (mean_at_most lfinite _ Hnonempty Hupper) as Hm.
    apply exp_monotone in Hm. rewrite exp_ln in Hm by lra. lra.
Qed.

Lemma gmean_between_witness :
  ∃ flux err,
    gmean [Fin 1; NaN; Fin 3; NegInf] = (Fin flux, Fin err)
    ∧ 1 <= flux <= 3 ∧ 0 <= err.
Proof.
  apply gmean_between.
  - reflexivity.
  - discriminate.
  - lra.
  - lra.
  - simpl. repeat apply Forall_cons_2; try apply Forall_nil_2; lra.
Defined.

Lemma sum_replicate (n : nat) (v : R) :
  foldr Rplus 0 (replicate n v) = INR n * v.
Proof.
  induction n as [| n IH]; [simpl; ring |].
  rewrite S_INR. simpl. rewrite IH. ring.
Qed.

Lemma mean_replicate (n : nat) (v : R) : mean (replicate (S n) v) = v.
Proof.
  unfold mean. rewrite sum_replicate, length_replicate.
  pose proof (positive_length (replicate (S n) v) ltac:(discriminate)) as Hn.
  rewrite length_replicate in Hn. field. lra.
Qed.

Lemma array_min_replicate (n : nat) (c : R) : array_min c (replicate n c) = c.
Proof.
  unfold array_min. induction n as [| n IH]; [reflexivity |].
  simpl. rewrite IH. apply Rmin_left. lra.
Qed.

(** The geometric mean of equal values is that value, with error zero:
    when every finite entry of the data is [c], of moderate size (within
    [-1e15, 1e15], far from overflow), and there is at least one such entry
    and no [+inf], [gmean] returns the flux [c] and the error 0. *)
Theorem gmean_constant (indata : list fvalue) (n : nat) (c : R) :
  has_inf indata = false →
  finite_values indata = replicate (S n) c →
  -1e15 <= c <= 1e15 →
  ∃ flux err, gmean indata = (Fin flux, Fin err) ∧ flux = c ∧ err = 0.
Proof.
  intros Hinf Hfin _. unfold gmean. rewrite Hinf, Hfin.
  change (replicate (S n) c) with (c :: replicate n c).
  do 2 eexists. split; [reflexivity |].
  rewrite array_min_replicate.
  set (scale := Rabs c + 1).
  assert (Hpos : 0 < c + scale).
  { unfold scale, Rabs. destruct (Rcase_abs c); lra. }
  change (c :: replicate n c) with (replicate (S n) c).
  rewrite !fmap_replicate.
  assert (Hflux : exp (mean (replicate (S n) (ln (c + scale)))) - scale = c).
  { rewrite mean_replicate, exp_ln by assumption. ring. }
  split; [exact Hflux |].
  unfold nanstd. rewrite fmap_replicate, !mean_replicate.
  replace ((ln (c + scale) - ln (c + scale)) ^ 2) with 0 by ring.
  rewrite sqrt_0, Rmult_0_l. apply Rabs_R0.
Qed.

Lemma gmean_constant_witness :
  ∃ flux err,
    gmean [NaN; Fin (-2); Fin (-2); NegInf; Fin (-2)] = (Fin flux, Fin err)
    ∧ flux = -2 ∧ err = 0.
Proof.
  apply (gmean_constant [NaN; Fin (-2); Fin (-2); NegInf; Fin (-2)] 2 (-2));
    [reflexivity | reflexivity | lra].
Defined.

(** ** The one-dimensional Gaussian *)

(** [gaussian] peaks at [cen] and is symmetric about it: for [sigma] not
    zero every value has absolute value at most [|amp|], a sample at [cen]
    has the value [amp], and mirroring the samples about [cen] gives the
    same values. *)
Theorem gaussian_peak_symmetric (x : list R) (amp cen sigma : R) :
  sigma ≠ 0 →
  Forall (λ v, ∃ r, v = Some r ∧ Rabs r <= Rabs amp) (gaussian x amp cen sigma)
  ∧ (∀ i, x !! i = Some cen → gaussian x amp cen sigma !! i = Some (Some amp))
  ∧ gaussian ((λ xi, 2 * cen - xi) <$> x) amp cen sigma = gaussian x amp cen sigma.
Proof.
  intros Hs. unfold gaussian. split; [| split].
  - apply Forall_fmap, Forall_forall. intros xi _. simpl.
    rewrite gaussian_at_defined by assumption. eexists. split; [reflexivity |].
    pose proof (pow2_ge_0 ((xi - cen) / sigma)) as Hsq.
    destruct (exp_nonpositive (- (1 / 2) * ((xi - cen) / sigma) ^ 2)) as [Hp Hle];
      [lra |].
    rewrite Rabs_mult, (Rabs_pos_eq (exp _)) by lra.
    pose proof (Rabs_pos amp). nra.
  - intros i Hi. rewrite list_lookup_fmap, Hi. simpl.
    rewrite gaussian_at_defined by assumption. do 2 f_equal.
    replace (- (1 / 2) * ((cen - cen) / sigma) ^ 2) with 0 by (field; assumption).
    rewrite exp_0. ring.
  - rewrite <- list_fmap_compose. apply list_fmap_ext. intros i xi _. simpl.
    rewrite !gaussian_at_defined by assumption. do 3 f_equal.
    field. assumption.
Qed.

Lemma gaussian_peak_symmetric_witness :
  Forall (λ v, ∃ r, v = Some r ∧ Rabs r <= Rabs 2) (gaussian [6; 7; 9] 2 7 1.5)
  ∧ (∀ i, [6; 7; 9] !! i = Some 7 →
          gaussian [6; 7; 9] 2 7 1.5 !! i = Some (Some 2))
  ∧ gaussian ((λ xi, 2 * 7 - xi) <$> [6; 7; 9]) 2 7 1.5
    = gaussian [6; 7; 9] 2 7 1.5.
Proof. apply gaussian_peak_symmetric. lra. Defined.

(** ** Error-weighted Jacobian *)

Lemma weighted_difference (shifted model : option R) (e : R) :
  (s ← shifted; m ← model; div ((s - m) / eps) e)
  = (s ← shifted; m ← model; Some ((s - m) / eps)) ≫= λ r, div r e.
Proof. destruct shifted, model; reflexivity. Qed.

Lemma jacobian2d_emp_row_weighted (amp xo yo sx sy theta e x y : R) :
  jacobian2d_emp_row amp xo yo sx sy theta (Some e) x y
  = (λ v, v ≫= λ r, div r e)
      <$> jacobian2d_emp_row amp xo yo sx sy theta None x y.
Proof.
  unfold jacobian2d_emp_row. cbv zeta beta iota.
  rewrite !fmap_cons, fmap_nil. rewrite !weighted_difference. reflexivity.
Qed.

(** The weights [errs] of [jacobian2d]. In the empirical mode row [i] of
    the Jacobian is the row of the unweighted Jacobian with every entry
    divided by [errs[i]] (no value where that is zero); the analytic mode
    ignores [errs]. *)
Theorem jacobian2d_weights
    (pars : Params) (x y es : list R) (amp xo yo sx sy theta : R) :
  reads2d pars amp xo yo sx sy theta →
  length x = length y → length es = length x →
  jacobian2d pars (x, y) false (Some es) = jacobian2d pars (x, y) false None
  ∧ ∃ J JW,
      jacobian2d pars (x, y) true None = Returned J
      ∧ jacobian2d pars (x, y) true (Some es) = Returned JW
      ∧ length JW = length J
      ∧ ∀ i row e, J !! i = Some row → es !! i = Some e →
          JW !! i = Some ((λ v, v ≫= λ r, div r e) <$> row).
Proof.
  intros Hreads Hxy Hes.
  rewrite !(jacobian2d_analytic _ _ _ _ _ _ _ _ _ _ Hreads).
  rewrite !(jacobian2d_empirical _ _ _ _ _ _ _ _ _ _ Hreads).
  split; [reflexivity |]. do 2 eexists. do 2 (split; [reflexivity |]).
  unfold errs_of. split.
  - rewrite !length_zip_with, length_replicate, length_fmap. lia.
  - intros i row e Hrow He.
    rewrite lookup_zip_with in Hrow. rewrite lookup_zip_with.
    destruct (zip x y !! i) as [p |] eqn:Hp; [| discriminate]. simpl in *.
    rewrite list_lookup_fmap, He. simpl.
    destruct (replicate (length x) None !! i) as [o |] eqn:Ho; [| discriminate].
    apply lookup_replicate in Ho as [-> _]. simpl in Hrow.
    injection Hrow as <-. rewrite jacobian2d_emp_row_weighted. reflexivity.
Qed.

Lemma jacobian2d_weights_witness :
  jacobian2d (gaussian2d_params 2 1 2 3 2 0) ([0; 1], [2; 3]) false
    (Some [0.2; 0.2])
  = jacobian2d (gaussian2d_params 2 1 2 3 2 0) ([0; 1], [2; 3]) false None
  ∧ ∃ J JW,
      jacobian2d (gaussian2d_params 2 1 2 3 2 0) ([0; 1], [2; 3]) true None
      = Returned J
      ∧ jacobian2d (gaussian2d_params 2 1 2 3 2 0) ([0; 1], [2; 3]) true
          (Some [0.2; 0.2]) = Returned JW
      ∧ length JW = length J
      ∧ ∀ i row e, J !! i = Some row → [0.2; 0.2] !! i = Some e →
          JW !! i = Some ((λ v, v ≫= λ r, div r e) <$> row).
Proof.
  apply (jacobian2d_weights _ _ _ _ 2 1 2 3 2 0);
    [apply reads2d_gaussian2d_params | reflexivity | reflexivity].
Defined.

(** ** Repeated fits *)

(** Fitting twice from the same parameters, as [test1d] and [test2d] do
    (once without and once with a whitening matrix): the second call of
    [do_lmfit] hands the solver the caller's initial parameters again,
    not the result of the first fit; its result is a new object, and the
    parameters returned by the first fit stay as the first fit left
    them. *)
Theorem do_lmfit_repeated
    (minimizer : Type)
    (minimize : (Params → outcome (list (option R))) →
                option (Params → outcome (list (list (option R)))) →
                Params → outcome minimizer * Params)
    (data : observation) (params : loc) (B1 B2 : option mat)
    (dojac1 dojac2 : bool) (w : world Params) (contents : Params) :
  heap w !! params = Some contents →
  let after1 := do_lmfit minimizer minimize data params B1 dojac1 w in
  let after2 := do_lmfit minimizer minimize data params B2 dojac2 after1.2 in
  let solved2 :=
    minimize (residual data B2) (if dojac2 then Some (jfn data) else None)
      contents in
  solver_calls after2.2 = S (S (solver_calls w))
  ∧ heap after2.2 !! params = Some contents
  ∧ (∀ e, solved2.1 = Raised e → after2.1 = Raised e)
  ∧ (∀ r2, solved2.1 = Returned r2 → ∃ c2, after2.1 = Returned (r2, c2))
  ∧ (∀ r1 c1 r2 c2,
       after1.1 = Returned (r1, c1) → after2.1 = Returned (r2, c2) →
       c1 ≠ c2 ∧ c1 ≠ params ∧ c2 ≠ params
       ∧ heap after2.2 !! c1 = heap after1.2 !! c1).
Proof.
  intros Hl after1 after2 solved2. subst after1 after2 solved2.
  rewrite (do_lmfit_unfold minimizer minimize data params B1 dojac1 w contents Hl).
  simpl.
  set (copy1 := fresh (dom (heap w))).
  set (solved1 := minimize (residual data B1)
                    (if dojac1 then Some (jfn data) else None) contents).
  set (h1 := <[copy1 := solved1.2]> (<[copy1 := contents]> (heap w))).
  set (w1 := World h1 (S (solver_calls w))).
  assert (Hne1 : copy1 ≠ params).
  { pose proof (fresh_unallocated (heap w)) as Hf. fold copy1 in Hf. congruence. }
  assert (Hl1 : heap w1 !! params = Some contents).
  { simpl. unfold h1. rewrite !lookup_insert_ne by assumption. assumption. }
  rewrite (do_lmfit_unfold minimizer minimize data params B2 dojac2 w1 contents Hl1).
  simpl.
  set (copy2 := fresh (dom h1)).
  pose proof (fresh_unallocated h1) as Hf2. fold copy2 in Hf2.
  assert (Hc1 : is_Some (h1 !! copy1)).
  { unfold h1. rewrite lookup_insert_eq. eexists; reflexivity. }
  assert (Hne12 : copy1 ≠ copy2).
  { intros Heq. rewrite Heq, Hf2 in Hc1. destruct Hc1; discriminate. }
  assert (Hne2 : copy2 ≠ params).
  { intros Heq. rewrite Heq in Hf2. simpl in Hl1. congruence. }
  repeat split.
  - rewrite !lookup_insert_ne by assumption. assumption.
  - intros e ->. reflexivity.
  - intros r2 ->. eexists. reflexivity.
  - destruct (solved1.1); [| discriminate].
    destruct (minimize _ _ _).1; [| discriminate]. congruence.
  - destruct (solved1.1); [| discriminate]. congruence.
  - destruct (minimize (residual data B2) _ _).1; [| discriminate]. congruence.
  - destruct (solved1.1); [| discriminate]. injection H as _ <-.
    rewrite !lookup_insert_ne by congruence. reflexivity.
Qed.

Lemma do_lmfit_repeated_witness :
  heap (do_lmfit unit minimize_in_place image_2x4 0%nat None false
          (do_lmfit unit minimize_in_place image_2x4 0%nat None false
             lmfit_caller).2).2 !! 0%nat
  = Some (gaussian2d_params 1 7.5 6 2.54 1.27 0).
Proof.
  destruct (do_lmfit_repeated unit minimize_in_place image_2x4 0%nat None None
              false false lmfit_caller (gaussian2d_params 1 7.5 6 2.54 1.27 0)
              eq_refl) as (_ & H & _).
  exact H.
Defined.
